(** * Localization audit script: a shallow embedding of [main.py] and [translate.py]

    The development follows the Python sources function by function:
    - Python [str] values are lists of Unicode code points;
    - the two regular expressions of [main.py] are terms of a small regex
      syntax, run by a backtracking matcher with the greedy, leftmost-first
      discipline of Python's [re] module;
    - a [dict] is an association list in insertion order (the order in which
      [dict.items()] iterates);
    - exceptions are an explicit error type, diagnostics written to the
      standard streams are an explicit list of events. *)

From Stdlib Require Import String Ascii DecimalString.
From Stdlib Require Import NArith Arith Bool Lia List Sorted.
Import ListNotations.

Set Implicit Arguments.

(** ** Python strings *)

Module Str.

(** A code point. *)
Definition char := N.
(** A Python [str]. *)
Definition str := list char.

Definition eqb_char (a b : char) : bool := N.eqb a b.

Fixpoint eqb (a b : str) : bool :=
  match a, b with
  | [], [] => true
  | x :: a', y :: b' => eqb_char x y && eqb a' b'
  | _, _ => false
  end.

(** Code points of a literal written with 8-bit characters. *)
Definition lit (s : string) : str :=
  map N_of_ascii (list_ascii_of_string s).

Definition LF : char := 10%N.
Definition CR : char := 13%N.
Definition space : char := 32%N.
Definition quote : char := 34%N.
Definition semicolon : char := 59%N.
Definition equals : char := 61%N.
Definition hyphen : char := 45%N.
Definition dot : char := 46%N.
Definition slash : char := 47%N.

(** [str.isspace] on one code point: the characters [str.strip()] removes. *)
Definition isspace (c : char) : bool :=
  ((9 <=? c) && (c <=? 13))%N
  || ((28 <=? c) && (c <=? 32))%N
  || (c =? 133)%N || (c =? 160)%N || (c =? 5760)%N
  || ((8192 <=? c) && (c <=? 8202))%N
  || (c =? 8232)%N || (c =? 8233)%N || (c =? 8239)%N
  || (c =? 8287)%N || (c =? 12288)%N.

Fixpoint dropwhile (p : char -> bool) (s : str) : str :=
  match s with
  | [] => []
  | c :: s' => if p c then dropwhile p s' else s
  end.

Definition lstrip (s : str) : str := dropwhile isspace s.
Definition rstrip (s : str) : str := rev (dropwhile isspace (rev s)).
(** [s.strip()] *)
Definition strip (s : str) : str := rstrip (lstrip s).

(** [s.startswith(p)] *)
Fixpoint startswith (p s : str) : bool :=
  match p, s with
  | [], _ => true
  | _ :: _, [] => false
  | a :: p', b :: s' => eqb_char a b && startswith p' s'
  end.

(** [sub in s] *)
Fixpoint contains (sub s : str) : bool :=
  startswith sub s ||
  match s with
  | [] => false
  | _ :: s' => contains sub s'
  end.

(** [s[:n]] for a non-negative [n]. *)
Definition prefix (n : nat) (s : str) : str := firstn n s.

End Str.
Import Str.

(** ** Regular expressions, as [re] runs them *)

Module Re.

(** The fragment of the pattern language [main.py] uses.  Repetition is
    only ever applied to a one-character class. *)
Inductive regex : Type :=
| Eps                                         (* the empty pattern *)
| Chr (c : char)                              (* a literal character *)
| Star (p : char -> bool)                     (* greedy [p*] *)
| Rep (p : char -> bool) (lo hi : nat)        (* greedy [p{lo,hi}] *)
| Opt (r : regex)                             (* greedy [(?:r)?] *)
| Cat (r1 r2 : regex)                         (* [r1r2] *)
| Grp (r : regex).                            (* capturing group [(r)] *)

(** A run of literal characters. *)
Fixpoint Lit (s : str) : regex :=
  match s with
  | [] => Eps
  | c :: s' => Cat (Chr c) (Lit s')
  end.

Section Matcher.
Variable A : Type.

(** Greedy star: take one more character if possible, and come back to
    the shorter match only when the continuation has failed. *)
Fixpoint star (p : char -> bool) (s : str) (k : str -> option A)
  : option A :=
  match s with
  | c :: s' =>
      if p c then
        match star p s' k with
        | Some r => Some r
        | None => k s
        end
      else k s
  | [] => k s
  end.

(** Greedy bounded repetition. *)
Fixpoint rep (p : char -> bool) (lo hi : nat) (s : str)
  (k : str -> option A) : option A :=
  let stop := match lo with O => k s | S _ => None end in
  match hi with
  | O => stop
  | S hi' =>
      match s with
      | c :: s' =>
          if p c then
            match rep p (pred lo) hi' s' k with
            | Some r => Some r
            | None => stop
            end
          else stop
      | [] => stop
      end
  end.

(** [run r s caps k]: match [r] at the head of [s]; [caps] holds the
    text of the groups closed so far, [k] is what remains to be matched.
    The first alternative that lets [k] succeed wins. *)
Fixpoint run (r : regex) (s : str) (caps : list str)
  (k : str -> list str -> option A) : option A :=
  match r with
  | Eps => k s caps
  | Chr c =>
      match s with
      | c' :: s' => if eqb_char c c' then k s' caps else None
      | [] => None
      end
  | Star p => star p s (fun s' => k s' caps)
  | Rep p lo hi => rep p lo hi s (fun s' => k s' caps)
  | Opt r1 =>
      match run r1 s caps k with
      | Some x => Some x
      | None => k s caps
      end
  | Cat r1 r2 => run r1 s caps (fun s' caps' => run r2 s' caps' k)
  | Grp r1 =>
      run r1 s caps
        (fun s' caps' =>
           k s' (caps' ++ [firstn (length s - length s') s]))
  end.
End Matcher.

(** [pattern.match(s)]: anchored at the start of [s], not at its end.
    The result is [match.groups()]. *)
Definition re_match (r : regex) (s : str) : option (list str) :=
  run r s [] (fun _ caps => Some caps).

(** [re.search(pattern, s)]: the match at the leftmost position that has one. *)
Fixpoint re_search (r : regex) (s : str) : option (list str) :=
  match re_match r s with
  | Some g => Some g
  | None =>
      match s with
      | [] => None
      | _ :: s' => re_search r s'
      end
  end.

(** [.] without DOTALL. *)
Definition any (c : char) : bool := negb (eqb_char c LF).
(** The literal space character. *)
Definition blank (c : char) : bool := eqb_char c space.
(** [[a-z]] *)
Definition lower (c : char) : bool := ((97 <=? c) && (c <=? 122))%N.
(** [[a-zA-Z]] *)
Definition alpha (c : char) : bool :=
  lower c || ((65 <=? c) && (c <=? 90))%N.

End Re.
Import Re.

(** ** Values, exceptions, dictionaries *)

(** The exceptions the program can raise. *)
Inductive exn : Type :=
| OSError (filepath : str)          (* [open] or a read failed *)
| ValueError (filepath : str)       (* raised by [get_language] *)
| UnicodeDecodeError (filepath : str) (* the file is not valid UTF-8 *)
| AttributeError                    (* [t.text] on an object without it *)
| SystemExit (code : nat).          (* [sys.exit] *)

Inductive result (A : Type) : Type :=
| Ok (a : A)
| Raise (e : exn).
Arguments Ok {A} a.
Arguments Raise {A} e.

Definition bind {A B : Type} (m : result A) (f : A -> result B) : result B :=
  match m with
  | Ok a => f a
  | Raise e => Raise e
  end.

Notation "x <- m ;; f" := (bind m (fun x => f))
  (at level 61, m at next level, right associativity).

(** A [dict] keyed by strings: the association list of its items, in
    insertion order. *)
Module Dict.
Section WithValue.
Variable V : Type.

Definition dict := list (str * V).

(** [d.get(k)] *)
Fixpoint get (d : dict) (k : str) : option V :=
  match d with
  | [] => None
  | (k', v) :: d' => if Str.eqb k' k then Some v else get d' k
  end.

(** [k in d] *)
Definition mem (k : str) (d : dict) : bool :=
  match get d k with
  | Some _ => true
  | None => false
  end.

(** [d[k] = v]: a present key keeps its place, a new key goes last. *)
Fixpoint set (d : dict) (k : str) (v : V) : dict :=
  match d with
  | [] => [(k, v)]
  | (k', v') :: d' =>
      if Str.eqb k' k then (k', v) :: d' else (k', v') :: set d' k v
  end.

(** [d.items()] *)
Definition items (d : dict) : list (str * V) := d.

Definition keys (d : dict) : list str := map fst d.
End WithValue.
End Dict.

(** [(line number, value)] *)
Definition entry : Type := nat * str.
(** [(key, (line number, value))] *)
Definition declaration : Type := str * entry.
(** [(key, (line number, value), translation)] *)
Definition translated : Type := str * entry * str.
(** The result of [parse]: [dict[str, tuple[int, str]]]. *)
Definition parsed := Dict.dict entry.

(** A table row handed to [PrettyTable]. *)
Definition row := list str.

(** What the program writes to its output streams. *)
Inductive event : Type :=
| ParsingFile (filepath : str)
| EmptyLine (i : nat)
| PatternMismatch (i : nat) (text : str)
| DuplicateKey (key : str) (first i : nat)
| Scanning (comparison_file : str)
| FoundMissing (count : nat) (table : list (nat * str * str))
| NoneMissing (comparison_file : str)
| FormatWarning (comparison_file : str) (table : list (nat * str * str))
| ParsingBase (base_file : str)
| NoComparisonFiles
| Collecting (directory : str)
| ParsingComparison (files : list str)
| Checking
| NothingToTranslate (comparison_file : str)
| Translating (comparison_file : str)
| Destination (comparison_file dest : str)
| NotImplemented
| TranslatedTable (comparison_file : str)
    (table : list (nat * str * str * str)).

(** ** Reporting configuration *)

Module ParseReporting.
Record t : Type := mk {
  empty_line : bool;
  mismatch_pattern : bool;
  duplicate_key : bool;
  manual_translation : bool
}.

Definition default : t := mk false true true true.
Definition silent : t := mk false false false false.
Definition verbose : t := mk true true true true.

Inductive Config : Type := DEFAULT | SILENT | VERBOSE.

Definition get_report (c : Config) : t :=
  match c with
  | DEFAULT => default
  | SILENT => silent
  | VERBOSE => verbose
  end.
End ParseReporting.

Module MissingReporting.
Record t : Type := mk {
  missing_declarations : bool;
  string_format_warnings : bool
}.

Definition default : t := mk true true.
Definition silent : t := mk false false.
Definition verbose : t := mk true true.

Inductive Config : Type := DEFAULT | SILENT | VERBOSE.

Definition get_report (c : Config) : t :=
  match c with
  | DEFAULT => default
  | SILENT => silent
  | VERBOSE => verbose
  end.
End MissingReporting.

(** ** The file system, as the program sees it *)

Record filesystem : Type := {
  (** the decoded text of a file, [None] when it cannot be opened, read or
      decoded *)
  read_text : str -> option str;
  (** for a file without text: it opens and reads, but its bytes are not
      valid UTF-8 *)
  undecodable : str -> bool;
  is_dir : str -> bool;
  is_file : str -> bool;
  (** the paths found by [rglob] for the name Localizable.strings *)
  rglob : str -> list str
}.

(** What [open] or [readlines] raises for a file without text: the
    decoding error when the bytes are not valid UTF-8, an [OSError]
    otherwise. *)
Definition read_error (fs : filesystem) (filepath : str) : exn :=
  if undecodable fs filepath then UnicodeDecodeError filepath
  else OSError filepath.

(** [f.readlines()] on a file opened in text mode: the text is cut after
    every line end, and the line ends [\r\n] and [\r] are read as [\n]. *)
Fixpoint readlines (s : str) : list str :=
  match s with
  | [] => []
  | c :: s' =>
      if eqb_char c LF then [LF] :: readlines s'
      else if eqb_char c CR then
        [LF] ::
        match s' with
        | c2 :: s'' => if eqb_char c2 LF then readlines s'' else readlines s'
        | [] => []
        end
      else
        match readlines s' with
        | [] => [[c]]
        | l :: ls => (c :: l) :: ls
        end
  end.

(** ** [parse] *)

(** The compiled pattern of [parse]: a double quote, group 1 (any
    characters, greedy), a double quote, spaces, the equals sign, spaces, a
    double quote, group 2 (any characters, greedy), a double quote, a
    semicolon. *)
Definition pattern : regex :=
  Cat (Chr quote)
 (Cat (Grp (Star any))
 (Cat (Chr quote)
 (Cat (Star blank)
 (Cat (Chr equals)
 (Cat (Star blank)
 (Cat (Chr quote)
 (Cat (Grp (Star any))
 (Cat (Chr quote)
      (Chr semicolon))))))))).

(** The body of the loop of [parse] for the line [line] of index [i]:
    [lines] is the dictionary under construction, [out] what has been
    printed. *)
Definition parse_line (report : ParseReporting.t) (i : nat) (line : str)
  (st : parsed * list event) : parsed * list event :=
  let (lines, out) := st in
  match re_match pattern (strip line) with
  | Some [key; value] =>
      match Dict.get lines key with
      | Some (first, _) =>
          (lines,
           if ParseReporting.duplicate_key report
           then out ++ [DuplicateKey key first i] else out)
      | None => (Dict.set lines key (i, value), out)
      end
  | _ =>
      (lines,
       match strip line with
       | [] =>
           if ParseReporting.empty_line report
           then out ++ [EmptyLine i] else out
       | _ :: _ =>
           if ParseReporting.mismatch_pattern report
           then out ++ [PatternMismatch i (strip line)] else out
       end)
  end.

Arguments parse_line : simpl never.

(** [for i, line in enumerate(...)], from index [i] on. *)
Fixpoint parse_lines (report : ParseReporting.t) (i : nat) (ls : list str)
  (st : parsed * list event) : parsed * list event :=
  match ls with
  | [] => st
  | line :: ls' => parse_lines report (S i) ls' (parse_line report i line st)
  end.

Definition parse (fs : filesystem) (filepath : str)
  (report : ParseReporting.t) : result parsed * list event :=
  match read_text fs filepath with
  | None => (Raise (read_error fs filepath), [ParsingFile filepath])
  | Some text =>
      let (lines, out) :=
        parse_lines report 0 (readlines text) ([], [ParsingFile filepath]) in
      (Ok lines, out)
  end.

(** ** [shorten_string] *)

Definition shorten_string (s : str) (max_length : nat) : str :=
  if max_length <? length s
  then
    (* the slice [s[:max_length - 3]]; a negative end leaves out that many
       of the last characters *)
    (if 3 <=? max_length
     then prefix (max_length - 3) s
     else prefix (length s - (3 - max_length)) s)
    ++ lit "..."
  else s.

(** ** [get_missing_declarations] *)

(** The marker looked for in the values: percent sign, at sign. *)
Definition format_marker : str := lit "%@".

Definition table_of (decls : list declaration) : list (nat * str * str) :=
  map (fun d : declaration =>
         let '(key, (line_num, value)) := d in
         (line_num, key, shorten_string value 60)) decls.

(** The loop that collects the base items whose key the comparison lacks. *)
Fixpoint collect_missing (base_items : list declaration)
  (comparison_parse : parsed) (missing_declarations : list declaration)
  : list declaration :=
  match base_items with
  | [] => missing_declarations
  | (base_key, base_value) :: rest =>
      collect_missing rest comparison_parse
        (if negb (Dict.mem base_key comparison_parse)
         then missing_declarations ++ [(base_key, base_value)]
         else missing_declarations)
  end.

(** The missing declarations whose value ([x[1][1]]) contains the marker. *)
Definition string_format_lines (missing_declarations : list declaration)
  : list declaration :=
  filter (fun x : declaration => contains format_marker (snd (snd x)))
    missing_declarations.

Definition get_missing_declarations (base_parse : parsed)
  (comparison_file : str) (comparison_parse : parsed)
  (report : MissingReporting.t) : list declaration * list event :=
  let out0 := [Scanning comparison_file] in
  let missing_declarations :=
    collect_missing (Dict.items base_parse) comparison_parse [] in
  let out1 :=
    if MissingReporting.missing_declarations report then
      match missing_declarations with
      | _ :: _ =>
          out0 ++ [FoundMissing (length missing_declarations)
                     (table_of missing_declarations)]
      | [] => out0 ++ [NoneMissing comparison_file]
      end
    else out0 in
  let string_format_lines := string_format_lines missing_declarations in
  let out2 :=
    if MissingReporting.string_format_warnings report then
      match string_format_lines with
      | _ :: _ =>
          out1 ++ [FormatWarning comparison_file (table_of string_format_lines)]
      | [] => out1
      end
    else out1 in
  (missing_declarations, out2).

(** ** [get_language] *)

(** The pattern of [get_language]: one group holding two or three
    letters a-z, optionally followed by a hyphen and two letters a-z or
    A-Z; then the literal text .lproj *)
Definition language_pattern : regex :=
  Cat (Grp (Cat (Rep lower 2 3)
                (Opt (Cat (Chr hyphen) (Rep alpha 2 2)))))
      (Lit (lit ".lproj")).

(** The path is given as [str(filepath)]. *)
Definition get_language (filepath : str) : result str :=
  match re_search language_pattern filepath with
  | Some (code :: _) => Ok code
  | _ => Raise (ValueError filepath)
  end.

(** ** The translation dependency ([translate.py]) *)

(** What a call of the dependency may hand back for one text: a plain
    [str], as the signatures of [translate.py] and the annotation in
    [get_translated_declarations] declare, or an object with a [text]
    attribute, as the expression [t.text] expects. *)
Inductive pyvalue : Type :=
| PStr (s : str)
| PObject (text : str).

(** [t.text] *)
Definition text_of (t : pyvalue) : result str :=
  match t with
  | PStr _ => Raise AttributeError
  | PObject text => Ok text
  end.

(** [a_batch_translate(texts, src, dest)], awaited: the list returned and
    what was printed. *)
Definition batch_translate : Type :=
  list str -> str -> str -> list pyvalue * list event.

Module Translator.
(** The class shipped in [translate.py]. *)
Definition a_batch_translate : batch_translate :=
  fun texts src dest => ([], [NotImplemented]).
End Translator.

(** ** [get_translated_declarations] *)

(** [zip(missing_decls, translated_texts)] mapped to triples, where
    [translated_texts] is the lazy [map] of [t.text]: a pair is formed only
    while both lists have an element left, and [t.text] is evaluated only
    then. *)
Fixpoint zip_translations (missing_decls : list declaration)
  (translations : list pyvalue) : result (list translated) :=
  match missing_decls, translations with
  | d :: ds, t :: ts =>
      text <- text_of t ;;
      rest <- zip_translations ds ts ;;
      Ok ((fst d, snd d, text) :: rest)
  | _, _ => Ok []
  end.

Definition get_translated_declarations (translator : batch_translate)
  (missing_decls : list declaration) (dest src : str)
  : result (list translated) * list event :=
  let texts := map (fun x : declaration => snd (snd x)) missing_decls in
  let (translations, out) := translator texts src dest in
  (zip_translations missing_decls translations, out).

(** ** [main] *)

Record arguments : Type := {
  base : str;
  comparison_files : list str;
  parse_level : ParseReporting.Config;
  missing_level : MissingReporting.Config;
  translate : bool
}.

(** [collect_language_files] *)
Definition collect_language_files (fs : filesystem) (root_directory : str)
  (exclude : str) : list str :=
  filter (fun path => is_file fs path && negb (Str.eqb path exclude))
    (rglob fs root_directory).

(** The loop that parses the comparison files. *)
Fixpoint parse_comparisons (fs : filesystem) (report : ParseReporting.t)
  (files : list str) (comparison_parses : Dict.dict parsed)
  : result (Dict.dict parsed) * list event :=
  match files with
  | [] => (Ok comparison_parses, [])
  | comparison_file :: rest =>
      match parse fs comparison_file report with
      | (Raise e, out) => (Raise e, out)
      | (Ok comparison_parse, out) =>
          let (r, out') :=
            parse_comparisons fs report rest
              (Dict.set comparison_parses comparison_file comparison_parse) in
          (r, out ++ out')
      end
  end.

(** The loop that computes the missing declarations of every file. *)
Fixpoint check_comparisons (base_parse : parsed)
  (report : MissingReporting.t) (parses : list (str * parsed))
  (missing_declarations : Dict.dict (list declaration))
  : Dict.dict (list declaration) * list event :=
  match parses with
  | [] => (missing_declarations, [])
  | (comparison_file, comparison_parse) :: rest =>
      let (missing, out) :=
        get_missing_declarations base_parse comparison_file comparison_parse
          report in
      let (r, out') :=
        check_comparisons base_parse report rest
          (Dict.set missing_declarations comparison_file missing) in
      (r, out ++ out')
  end.

(** The translation loop of [main] (the body of [if args.translate]):
    [todo] is what is left of [missing_declarations.items()],
    [translated_declarations] the dictionary filled so far.  No exception
    is caught: the first one ends the loop and leaves [main]. *)
Fixpoint translate_missing (translator : batch_translate) (base_file : str)
  (todo : list (str * list declaration))
  (translated_declarations : Dict.dict (list translated))
  : result (Dict.dict (list translated)) * list event :=
  match todo with
  | [] => (Ok translated_declarations, [])
  | (comparison_file, missing_decls) :: rest =>
      match missing_decls with
      | [] =>
          let (r, out') :=
            translate_missing translator base_file rest
              translated_declarations in
          (r, NothingToTranslate comparison_file :: out')
      | _ :: _ =>
          match get_language base_file with
          | Raise e => (Raise e, [Translating comparison_file])
          | Ok src =>
              match get_language comparison_file with
              | Raise e => (Raise e, [Translating comparison_file])
              | Ok dest =>
                  match
                    get_translated_declarations translator missing_decls
                      dest src
                  with
                  | (Raise e, out) =>
                      (Raise e,
                       Translating comparison_file
                       :: Destination comparison_file dest :: out)
                  | (Ok translated_decls, out) =>
                      let (r, out') :=
                        translate_missing translator base_file rest
                          (Dict.set translated_declarations comparison_file
                             translated_decls) in
                      (r,
                       Translating comparison_file
                       :: Destination comparison_file dest :: out ++ out')
                  end
              end
          end
      end
  end.

(** The tables printed at the end of [main]. *)
Definition print_translated (translate : bool)
  (translated_declarations : list (str * list translated)) : list event :=
  flat_map
    (fun item : str * list translated =>
       let (comparison_file, translated_decls) := item in
       match translated_decls with
       | [] => []
       | _ :: _ =>
           if translate then
             [TranslatedTable comparison_file
                (map (fun t : translated =>
                        let '(key, (line_num, value), translation) := t in
                        (line_num, key, shorten_string value 60,
                         shorten_string translation 60))
                   translated_decls)]
           else []
       end)
    translated_declarations.

(** [main], from the parsed command line on.  The value returned is the
    final [translated_declarations]. *)
Definition main (fs : filesystem) (translator : batch_translate)
  (args : arguments) : result (Dict.dict (list translated)) * list event :=
  let parse_reporting := ParseReporting.get_report (parse_level args) in
  let missing_reporting := MissingReporting.get_report (missing_level args) in
  let base_file := base args in
  match parse fs base_file parse_reporting with
  | (Raise e, out) => (Raise e, ParsingBase base_file :: out)
  | (Ok base_parse, out) =>
      let out := ParsingBase base_file :: out in
      match comparison_files args with
      | [] => (Raise (SystemExit 0), out ++ [NoComparisonFiles])
      | first :: others =>
          let (files, out) :=
            match others with
            | [] =>
                if is_dir fs first
                then (collect_language_files fs first base_file,
                      out ++ [Collecting first])
                else (comparison_files args, out)
            | _ :: _ => (comparison_files args, out)
            end in
          let out := out ++ [ParsingComparison files] in
          match parse_comparisons fs parse_reporting files [] with
          | (Raise e, out') => (Raise e, out ++ out')
          | (Ok comparison_parses, out') =>
              let out := out ++ out' ++ [Checking] in
              let (missing_declarations, out') :=
                check_comparisons base_parse missing_reporting
                  (Dict.items comparison_parses) [] in
              let out := out ++ out' in
              if translate args then
                match
                  translate_missing translator base_file
                    (Dict.items missing_declarations) []
                with
                | (Raise e, out') => (Raise e, out ++ out')
                | (Ok translated_declarations, out') =>
                    (Ok translated_declarations,
                     out ++ out'
                     ++ print_translated true
                          (Dict.items translated_declarations))
                end
              else (Ok [], out)
          end
      end
  end.

(** ** [pretty_table.py] *)

Module PrettyTable.

(** A cell: the tables of [main] hold line numbers and strings. *)
Inductive item : Type :=
| IInt (n : nat)
| IStr (s : str).

(** [str(item)] *)
Definition str_of (x : item) : str :=
  match x with
  | IInt n => lit (NilEmpty.string_of_uint (Nat.to_uint n))
  | IStr s => s
  end.

(** The object: [data] is the list handed to the constructor, which the
    object keeps and changes in place; the attribute [headers] exists only
    once it has been set. *)
Record t : Type := mk {
  data : list (list item);
  headers : option bool
}.

(** [__init__]: a non-empty list of headers becomes the first row of
    [data]. *)
Definition init (data : list (list item)) (headers : option (list item))
  : t :=
  match headers with
  | Some (h :: hs) => mk ((h :: hs) :: data) (Some true)
  | _ => mk data None
  end.

(** [s.ljust(width)] *)
Definition ljust (s : str) (width : nat) : str :=
  s ++ repeat space (width - length s).

(** [sep.join(parts)] *)
Fixpoint join (sep : str) (parts : list str) : str :=
  match parts with
  | [] => []
  | p :: ps =>
      match ps with
      | [] => p
      | _ :: _ => p ++ sep ++ join sep ps
      end
  end.

(** The first cell of every row and what is left of every row; nothing
    when a row is exhausted. *)
Fixpoint heads_tails (rows : list (list item))
  : option (list item * list (list item)) :=
  match rows with
  | [] => Some ([], [])
  | [] :: _ => None
  | (x :: r) :: rows' =>
      match heads_tails rows' with
      | Some (hs, ts) => Some (x :: hs, r :: ts)
      | None => None
      end
  end.

(** [zip] of the rows, column by column until a row is exhausted; [n]
    bounds the number of columns. *)
Fixpoint zip_rows (n : nat) (rows : list (list item)) : list (list item) :=
  match n with
  | O => []
  | S n' =>
      match heads_tails rows with
      | Some (hs, ts) => hs :: zip_rows n' ts
      | None => []
      end
  end.

(** [list(zip( *self.data))]: no column can be longer than the first
    row. *)
Definition columns (rows : list (list item)) : list (list item) :=
  zip_rows (length (hd [] rows)) rows.

(** [max(len(str(item)) for item in col)], for every column. *)
Definition col_widths (rows : list (list item)) : list nat :=
  map (fun col => list_max (map (fun x => length (str_of x)) col))
    (columns rows).

(** One line of the table: the cells paired with the widths, padded and
    joined. *)
Definition pretty_row (row : list item) (widths : list nat) : str :=
  join (lit " | ")
    (map (fun p : item * nat => ljust (str_of (fst p)) (snd p))
       (combine row widths)).

(** [__str__]: the text, or the exception, and the object afterwards. *)
Definition to_str (self : t) : result str * t :=
  match data self with
  | [] => (Ok (lit "No data provided."), self)
  | first :: rest =>
      let widths := col_widths (data self) in
      match headers self with
      | None => (Raise AttributeError, self)
      | Some true =>
          let top := pretty_row first widths in
          (Ok (top ++ [LF] ++ repeat hyphen (length top) ++ [LF]
               ++ concat (map (fun row => pretty_row row widths ++ [LF])
                            rest)),
           mk rest (Some true))
      | Some false =>
          (Ok (concat (map (fun row => pretty_row row widths ++ [LF])
                         (data self))),
           self)
      end
  end.

End PrettyTable.

(** * Vocabulary of the statements *)

(** The text of a declaration: key [k] and value [v] between double
    quotes, [sp1] and [sp2] around the equals sign, a closing semicolon. *)
Definition declaration_text (k sp1 sp2 v : str) : str :=
  quote :: k ++ quote :: sp1 ++ equals :: sp2 ++ quote :: v
  ++ [quote; semicolon].

(** What follows group 1 in [pattern]. *)
Definition pattern_tail : regex :=
  Cat (Chr quote)
 (Cat (Star blank)
 (Cat (Chr equals)
 (Cat (Star blank)
 (Cat (Chr quote)
 (Cat (Grp (Star any))
 (Cat (Chr quote)
      (Chr semicolon))))))).

(** The text between a key and a value: a double quote, spaces, the equals
    sign, spaces, a double quote. *)
Definition separator : regex :=
  Cat (Chr quote)
 (Cat (Star blank)
 (Cat (Chr equals)
 (Cat (Star blank)
      (Chr quote)))).

Definition has_separator (s : str) : bool :=
  match re_search separator s with
  | Some _ => true
  | None => false
  end.

(** The final continuation of [re_match]. *)
Definition done : str -> list str -> option (list str) :=
  fun _ caps => Some caps.

(** A line end can only be the last character of a line. *)
Definition line_ok (l : str) : Prop :=
  forall a b, l = a ++ LF :: b -> b = [].



(** No line before the one of index [i] declares the key [k]. *)
Definition first_for (lines : list str) (i : nat) (k : str) : Prop :=
  forall j line v,
    j < i -> nth_error lines j = Some line ->
    re_match pattern (strip line) <> Some [k; v].

(** A base file and a comparison file, for examples. *)
Definition base_text : str :=
  declaration_text (lit "hi") [space] [space] (lit "Hello") ++ [LF]
  ++ [space; space]
  ++ declaration_text (lit "bye") [] [space; space] (lit "Bye %@") ++ [LF]
  ++ lit "junk" ++ [LF]
  ++ declaration_text (lit "hi") [space] [space] (lit "Again") ++ [LF]
  ++ declaration_text (lit "a") [space] [space] (lit "b") ++ lit " x".

Definition comparison_text : str :=
  declaration_text (lit "hi") [space] [space] (lit "Salut") ++ [LF].

Definition base_path : str := lit "app/en.lproj/Localizable.strings".
Definition french_path : str := lit "app/fr.lproj/Localizable.strings".
Definition stray_path : str := lit "app/other/Localizable.strings".

Definition example_fs : filesystem :=
  {| read_text := fun p =>
       if Str.eqb p base_path then Some base_text
       else if Str.eqb p french_path then Some comparison_text
       else if Str.eqb p stray_path then Some comparison_text
       else None;
     undecodable := fun _ => false;
     is_dir := fun _ => false;
     is_file := fun _ => true;
     rglob := fun _ => [] |}.

(** The test of the loop: the key is not in the comparison file. *)
Definition absent_from (comparison_parse : parsed) (d : declaration) : bool :=
  negb (Dict.mem (fst d) comparison_parse).

Definition example_base : parsed :=
  [(lit "hi", (0, lit "Hello")); (lit "bye", (1, lit "Bye %@"));
   (lit "ok", (2, lit "OK"))].

Definition example_comparison : parsed :=
  [(lit "hi", (0, lit "Salut"))].

(** The suffix of a locale directory. *)
Definition lproj : str := lit ".lproj".

(** Nothing, or a hyphen and two letters. *)
Definition is_region (r : str) : bool :=
  match r with
  | [] => true
  | [h; r1; r2] => eqb_char h hyphen && alpha r1 && alpha r2
  | _ => false
  end.

(** Two or three letters a-z, then an optional region. *)
Definition is_language_code (code : str) : bool :=
  match code with
  | a :: b :: rest =>
      lower a && lower b &&
      (is_region rest
       || match rest with
          | c :: rest' => lower c && is_region rest'
          | [] => false
          end)
  | _ => false
  end.

(** The characters a language code is made of. *)
Definition code_char (c : char) : bool := alpha c || eqb_char c hyphen.

(** What precedes a path segment: nothing, or text ending with a slash. *)
Definition segment_start (p : str) : Prop :=
  p = [] \/ exists p', p = p' ++ [slash].

(** The texts submitted for a list of missing declarations. *)
Definition texts_of (missing_decls : list declaration) : list str :=
  map (fun x : declaration => snd (snd x)) missing_decls.

(** A declaration with the translation of the same position. *)
Definition attach (p : declaration * str) : translated :=
  (fst (fst p), snd (fst p), snd p).

(** A dependency that answers with one plain [str] per text, in order. *)
Definition string_stub (f : str -> str) : batch_translate :=
  fun texts src dest => (map (fun t => PStr (f t)) texts, []).

(** A dependency that answers with one object per text, in order. *)
Definition object_stub (f : str -> str) : batch_translate :=
  fun texts src dest => (map (fun t => PObject (f t)) texts, []).

(** A dependency that answers with one object, whatever it is asked. *)
Definition short_stub : batch_translate :=
  fun texts src dest => ([PObject (lit "Au revoir")], []).

Definition example_missing : list declaration :=
  [(lit "bye", (1, lit "Bye")); (lit "ok", (2, lit "OK"))].

(** The line numbers of the entries, in the order of the items. *)
Definition line_numbers (d : parsed) : list nat :=
  map (fun x : declaration => fst (snd x)) (Dict.items d).

(** The notice printed for a blank line. *)
Definition is_empty_notice (e : event) : bool :=
  match e with
  | EmptyLine _ => true
  | _ => false
  end.

(** Some line declares the key [k]. *)
Definition declares (lines : list str) (k : str) : Prop :=
  exists i line v,
    nth_error lines i = Some line
    /\ re_match pattern (strip line) = Some [k; v].

(** A language code followed by the suffix occurs in the path. *)
Definition has_locale (path : str) : Prop :=
  exists u code w,
    path = u ++ code ++ lproj ++ w /\ is_language_code code = true.

(** The declaration a translated entry was made from. *)
Definition source_of (t : translated) : declaration :=
  (fst (fst t), snd (fst t)).

(** The answer is a plain [str]. *)
Definition is_plain (t : pyvalue) : bool :=
  match t with
  | PStr _ => true
  | PObject _ => false
  end.

(** The command line names the comparison files themselves, not one
    directory to search. *)
Definition files_given (fs : filesystem) (args : arguments) : Prop :=
  match comparison_files args with
  | [p] => is_dir fs p = false
  | _ => True
  end.

(** The table [main] prints for a list of rows. *)
Definition table_header : list PrettyTable.item :=
  [PrettyTable.IStr (lit "Line"); PrettyTable.IStr (lit "Key");
   PrettyTable.IStr (lit "Value")].

Definition table_cells (r : nat * str * str) : list PrettyTable.item :=
  [PrettyTable.IInt (fst (fst r)); PrettyTable.IStr (snd (fst r));
   PrettyTable.IStr (snd r)].

(** The lines of a text, each closed by a line end. *)
Definition unlines (lines : list str) : str :=
  concat (map (fun l => l ++ [LF]) lines).

(** Every cell of the row fits the width of its column, and the row has
    a cell for every width. *)
Fixpoint covered (row : list PrettyTable.item) (widths : list nat)
  {struct widths} : Prop :=
  match widths, row with
  | [], _ => True
  | w :: ws, x :: r => length (PrettyTable.str_of x) <= w /\ covered r ws
  | _ :: _, [] => False
  end.

(** The length of a line for the given widths. *)
Fixpoint line_width (widths : list nat) : nat :=
  match widths with
  | [] => 0
  | w :: ws =>
      match ws with
      | [] => w
      | _ :: _ => w + 3 + line_width ws
      end
  end.

(** A dependency that answers with one object per text, in order, the
    translation depending on the two languages it is given. *)
Definition language_stub (f : str -> str -> str -> str) : batch_translate :=
  fun texts src dest => (map (fun t => PObject (f src dest t)) texts, []).

(** The entries expected for the declarations of one file. *)
Definition translated_with (f : str -> str) (decls : list declaration)
  : list translated :=
  map (fun d : declaration => (fst d, snd d, f (snd (snd d)))) decls.

(** The segments of a path: the texts between the slashes. *)
Fixpoint segments (path : str) : list str :=
  match path with
  | [] => [[]]
  | c :: p =>
      if eqb_char c slash then [] :: segments p
      else
        match segments p with
        | s :: ss => (c :: s) :: ss
        | [] => [[c]]
        end
  end.

(** [s.endswith(suffix)] *)
Definition endswith (suffix s : str) : bool :=
  startswith (rev suffix) (rev s).

(** Some segment of the path ends with the suffix of a locale
    directory. *)
Definition has_lproj_segment (path : str) : bool :=
  existsb (endswith lproj) (segments path).

(** What the parsing of the files prints. *)
Definition is_parse_output (e : event) : bool :=
  match e with
  | ParsingBase _ | ParsingFile _ | EmptyLine _ | PatternMismatch _ _
  | DuplicateKey _ _ _ | ParsingComparison _ | Collecting _ => true
  | _ => false
  end.

Definition german_path : str := lit "app/de.lproj/Localizable.strings".

(** A project directory with the base file and three comparison files,
    one of them outside a locale directory. *)
Definition tree_fs : filesystem :=
  {| read_text := fun p =>
       if Str.eqb p base_path then Some base_text
       else if Str.eqb p french_path then Some comparison_text
       else if Str.eqb p stray_path then Some comparison_text
       else if Str.eqb p german_path then Some comparison_text
       else None;
     undecodable := fun p => Str.eqb p (lit "app/legacy.strings");
     is_dir := fun p => Str.eqb p (lit "app");
     is_file := fun p => negb (Str.eqb p (lit "app/backup"));
     rglob := fun p =>
       if Str.eqb p (lit "app")
       then [french_path; base_path; lit "app/backup"; german_path]
       else [] |}.

(** * Properties *)

(** ** Strings *)

Section StrFacts.

Lemma eqb_char_eq (a b : char) : eqb_char a b = true <-> a = b.
Proof. apply N.eqb_eq. Qed.

Lemma eqb_char_refl (a : char) : eqb_char a a = true.
Proof. apply N.eqb_refl. Qed.

Lemma str_eqb_eq (a b : str) : Str.eqb a b = true <-> a = b.
Proof.
  revert b; induction a as [|x a IH]; intros [|y b]; simpl;
    try (split; [discriminate | congruence]); try tauto.
  rewrite andb_true_iff, eqb_char_eq, IH.
  split; [intros [-> ->]; reflexivity | intros E; injection E; auto].
Qed.

Lemma str_eqb_refl (a : str) : Str.eqb a a = true.
Proof. apply str_eqb_eq; reflexivity. Qed.

Lemma str_eqb_neq (a b : str) : Str.eqb a b = false <-> a <> b.
Proof.
  rewrite <- str_eqb_eq. destruct (Str.eqb a b); split; congruence.
Qed.

Lemma dropwhile_all (p : char -> bool) (a b : str) :
  forallb p a = true -> dropwhile p (a ++ b) = dropwhile p b.
Proof.
  induction a as [|c a IH]; simpl; [reflexivity|].
  rewrite andb_true_iff; intros [-> Ha]; auto.
Qed.

Lemma dropwhile_stop (p : char -> bool) (c : char) (s : str) :
  p c = false -> dropwhile p (c :: s) = c :: s.
Proof. simpl; intros ->; reflexivity. Qed.

Lemma forallb_rev (p : char -> bool) (s : str) :
  forallb p (rev s) = forallb p s.
Proof.
  induction s as [|c s IH]; simpl; [reflexivity|].
  rewrite forallb_app, IH. simpl. rewrite andb_true_r. apply andb_comm.
Qed.

Lemma lstrip_core (ws : str) (c : char) (s : str) :
  forallb isspace ws = true -> isspace c = false ->
  lstrip (ws ++ c :: s) = c :: s.
Proof.
  intros Hws Hc. unfold lstrip.
  rewrite dropwhile_all by assumption. apply dropwhile_stop, Hc.
Qed.

Lemma rstrip_core (ws : str) (c : char) (s : str) :
  forallb isspace ws = true -> isspace c = false ->
  rstrip (s ++ c :: ws) = s ++ [c].
Proof.
  intros Hws Hc. unfold rstrip.
  replace (s ++ c :: ws) with ((s ++ [c]) ++ ws)
    by (rewrite <- app_assoc; reflexivity).
  rewrite rev_app_distr.
  rewrite dropwhile_all by (rewrite forallb_rev; assumption).
  rewrite rev_app_distr. simpl app.
  rewrite dropwhile_stop by assumption.
  change (c :: rev s) with (rev [c] ++ rev s).
  rewrite <- rev_app_distr. apply rev_involutive.
Qed.

(** Stripping removes the surrounding white space and nothing else when
    the core starts and ends with a character that is not white space. *)
Lemma strip_core (ws1 ws2 : str) (c1 c2 : char) (mid : str) :
  forallb isspace ws1 = true ->
  forallb isspace ws2 = true ->
  isspace c1 = false ->
  isspace c2 = false ->
  strip (ws1 ++ (c1 :: mid ++ [c2]) ++ ws2) = c1 :: mid ++ [c2].
Proof.
  intros H1 H2 Hc1 Hc2. unfold strip.
  change ((c1 :: mid ++ [c2]) ++ ws2) with (c1 :: (mid ++ [c2]) ++ ws2).
  rewrite lstrip_core by assumption.
  replace (c1 :: (mid ++ [c2]) ++ ws2) with ((c1 :: mid) ++ c2 :: ws2)
    by (simpl; rewrite <- app_assoc; reflexivity).
  rewrite rstrip_core by assumption. reflexivity.
Qed.

Lemma startswith_spec (p s : str) :
  startswith p s = true <-> exists w, s = p ++ w.
Proof.
  revert s; induction p as [|a p IH]; intros s; simpl.
  - split; [exists s; reflexivity | reflexivity].
  - destruct s as [|b s].
    + split; [discriminate | intros [w E]; discriminate].
    + rewrite andb_true_iff, eqb_char_eq, IH. split.
      * intros [-> [w ->]]; exists w; reflexivity.
      * intros [w E]; injection E as -> ->; split; [reflexivity | eauto].
Qed.

(** [sub in s] holds exactly when [sub] occurs somewhere in [s]. *)
Lemma contains_spec (sub s : str) :
  contains sub s = true <-> exists u w, s = u ++ sub ++ w.
Proof.
  induction s as [|c s IH]; simpl.
  - rewrite orb_false_r, startswith_spec. split.
    + intros [w E]; exists [], w; assumption.
    + intros (u & w & E). destruct u; [eauto|discriminate].
  - rewrite orb_true_iff, startswith_spec, IH. split.
    + intros [[w E] | (u & w & E)].
      * exists [], w; assumption.
      * exists (c :: u), w; rewrite E; reflexivity.
    + intros (u & w & E). destruct u as [|c' u].
      * left; exists w; assumption.
      * right; injection E as _ E; eauto.
Qed.

Lemma firstn_prefix (a b : str) :
  firstn (length (a ++ b) - length b) (a ++ b) = a.
Proof.
  rewrite length_app, Nat.add_sub.
  rewrite firstn_app, Nat.sub_diag, firstn_all. simpl. apply app_nil_r.
Qed.

End StrFacts.

(** ** The matcher *)

Section ReFacts.
Variable A : Type.
Implicit Types (p : char -> bool) (k : str -> option A).

(** A successful star has consumed a run of [p] and handed the rest to
    the continuation. *)
Lemma star_sound p s k r :
  star p s k = Some r ->
  exists a b, s = a ++ b /\ forallb p a = true /\ k b = Some r.
Proof.
  induction s as [|c s IH]; simpl.
  - intros H; exists [], []; auto.
  - destruct (p c) eqn:Hc.
    + destruct (star p s k) as [r'|] eqn:Hs.
      * intros [= ->]. destruct (IH eq_refl) as (a & b & -> & Ha & Hk).
        exists (c :: a), b; simpl; rewrite Hc; auto.
      * intros H; exists [], (c :: s); auto.
    + intros H; exists [], (c :: s); auto.
Qed.

(** The star fails when the continuation fails after every run of [p]. *)
Lemma star_none p s k :
  (forall a b, s = a ++ b -> forallb p a = true -> k b = None) ->
  star p s k = None.
Proof.
  intros H. destruct (star p s k) as [r|] eqn:E; [|reflexivity].
  destruct (star_sound _ _ _ E) as (a & b & Hs & Ha & Hk).
  rewrite (H a b Hs Ha) in Hk; discriminate.
Qed.

(** Greediness: the star stops after [a] when no longer run of [p] lets
    the continuation succeed. *)
Lemma star_longest p a b k r :
  forallb p a = true ->
  k b = Some r ->
  (forall b1 b2, b = b1 ++ b2 -> b1 <> [] -> forallb p b1 = true ->
                 k b2 = None) ->
  star p (a ++ b) k = Some r.
Proof.
  intros Ha Hk Hlonger. induction a as [|c a IH]; simpl.
  - destruct b as [|c b]; simpl; [assumption|].
    destruct (p c) eqn:Hc; [|assumption].
    rewrite star_none; [assumption|].
    intros a' b' E Ha'. apply (Hlonger (c :: a') b').
    + rewrite E; reflexivity.
    + discriminate.
    + simpl; rewrite Hc; assumption.
  - simpl in Ha. apply andb_true_iff in Ha as [-> Ha].
    rewrite (IH Ha). reflexivity.
Qed.

(** When the continuation cannot start with a [p], the star is
    deterministic: it consumes the whole run. *)
Lemma star_skip p s k :
  (forall c s', p c = true -> k (c :: s') = None) ->
  star p s k = k (dropwhile p s).
Proof.
  intros H. induction s as [|c s IH]; simpl; [reflexivity|].
  destruct (p c) eqn:Hc; [|reflexivity].
  rewrite IH. destruct (k (dropwhile p s)); [reflexivity|].
  apply H, Hc.
Qed.

Lemma rep_sound p lo hi s k r :
  rep p lo hi s k = Some r ->
  exists a b, s = a ++ b /\ forallb p a = true
              /\ lo <= length a <= hi /\ k b = Some r.
Proof.
  revert lo s. induction hi as [|hi IH]; intros lo s.
  - simpl. destruct lo; [|discriminate].
    intros H; exists [], s; simpl; auto.
  - assert (Hstop : match lo with O => k s | S _ => None end = Some r ->
                    exists a b, s = a ++ b /\ forallb p a = true
                      /\ lo <= length a <= S hi /\ k b = Some r).
    { destruct lo; [|discriminate].
      intros H; exists [], s; simpl; repeat split; auto; lia. }
    simpl. destruct s as [|c s]; [exact Hstop|].
    destruct (p c) eqn:Hc; [|exact Hstop].
    destruct (rep p (pred lo) hi s k) as [r'|] eqn:E; [|exact Hstop].
    intros [= ->].
    destruct (IH _ _ E) as (a & b & -> & Ha & Hlen & Hk).
    exists (c :: a), b; simpl; rewrite Hc. repeat split; auto; lia.
Qed.

End ReFacts.

(** ** The declaration grammar *)

(** Inverts a successful match of one literal character. *)
Ltac chr H :=
  match type of H with
  | match ?b with [] => None | _ :: _ => _ end = Some _ =>
      let c := fresh "c" in
      let E := fresh "E" in
      destruct b as [|c ?s]; [discriminate H|];
      match type of H with
      | (if eqb_char ?x c then _ else _) = _ =>
          destruct (eqb_char x c) eqn:E;
          [apply eqb_char_eq in E; subst c | discriminate H]
      end
  end.

(** Brings nested concatenations to right-nested form. *)
Ltac norm_app := repeat first [rewrite <- app_assoc | progress cbn [app]].

Section Grammar.

Lemma blank_not_equals c : blank c = true -> eqb_char equals c = false.
Proof. unfold blank. intros H; apply eqb_char_eq in H; subst; reflexivity. Qed.

Lemma blank_not_quote c : blank c = true -> eqb_char quote c = false.
Proof. unfold blank. intros H; apply eqb_char_eq in H; subst; reflexivity. Qed.

Lemma tail_sound s caps g :
  run pattern_tail s caps done = Some g ->
  exists sp1 sp2 v rest,
    s = quote :: sp1 ++ equals :: sp2 ++ quote :: v
        ++ quote :: semicolon :: rest
    /\ g = caps ++ [v]
    /\ forallb blank sp1 = true /\ forallb blank sp2 = true
    /\ forallb any v = true.
Proof.
  unfold pattern_tail, done. intros H. cbn [run] in H.
  chr H.
  apply star_sound in H as (sp1 & b & -> & Hsp1 & H).
  chr H.
  apply star_sound in H as (sp2 & b & -> & Hsp2 & H).
  chr H.
  apply star_sound in H as (v & b & -> & Hv & H).
  chr H. chr H. injection H as <-.
  rewrite firstn_prefix.
  exists sp1, sp2, v, s. auto.
Qed.

Lemma tail_complete sp1 sp2 v caps :
  forallb blank sp1 = true -> forallb blank sp2 = true ->
  forallb any v = true ->
  run pattern_tail
    (quote :: sp1 ++ equals :: sp2 ++ quote :: v ++ [quote; semicolon])
    caps done
  = Some (caps ++ [v]).
Proof.
  intros H1 H2 Hv. unfold pattern_tail, done. cbn [run].
  rewrite eqb_char_refl.
  rewrite star_skip
    by (intros c s' Hc; rewrite (blank_not_equals _ Hc); reflexivity).
  rewrite dropwhile_all by assumption. cbn [dropwhile].
  change (blank equals) with false. cbv iota. rewrite eqb_char_refl.
  rewrite star_skip
    by (intros c s' Hc; rewrite (blank_not_quote _ Hc); reflexivity).
  rewrite dropwhile_all by assumption. cbn [dropwhile].
  change (blank quote) with false. cbv iota. rewrite eqb_char_refl.
  apply star_longest; [assumption | |].
  - cbn. rewrite firstn_prefix. reflexivity.
  - intros b1 b2 E Hne _.
    destruct b1 as [|x [|y [|z b1]]]; [congruence| | |discriminate E];
      injection E as <- E; try injection E as <- E; subst b2; reflexivity.
Qed.

Lemma separator_complete sp1 sp2 w :
  forallb blank sp1 = true -> forallb blank sp2 = true ->
  re_match separator (quote :: sp1 ++ equals :: sp2 ++ quote :: w) <> None.
Proof.
  intros H1 H2. unfold re_match, separator. cbn [run].
  rewrite eqb_char_refl.
  rewrite star_skip
    by (intros c s' Hc; rewrite (blank_not_equals _ Hc); reflexivity).
  rewrite dropwhile_all by assumption. cbn [dropwhile].
  change (blank equals) with false. cbv iota. rewrite eqb_char_refl.
  rewrite star_skip
    by (intros c s' Hc; rewrite (blank_not_quote _ Hc); reflexivity).
  rewrite dropwhile_all by assumption. cbn [dropwhile].
  change (blank quote) with false. cbv iota. rewrite eqb_char_refl.
  discriminate.
Qed.

(** [has_separator] finds every occurrence of a separator. *)
Lemma has_separator_complete u sp1 sp2 w :
  forallb blank sp1 = true -> forallb blank sp2 = true ->
  has_separator (u ++ quote :: sp1 ++ equals :: sp2 ++ quote :: w) = true.
Proof.
  intros H1 H2. unfold has_separator.
  induction u as [|c u IH]; cbn [app re_search].
  - pose proof (separator_complete sp1 sp2 w H1 H2) as H.
    destruct (re_match separator _); [reflexivity | congruence].
  - destruct (re_match separator (c :: _)); [reflexivity | exact IH].
Qed.

(** A later place where the key could end, in a declaration, yields a
    separator inside the value or right at its opening quote. *)
Lemma later_split sp1 sp2 v b1 b2 sp1' sp2' w :
  forallb blank sp1 = true -> forallb blank sp2 = true ->
  forallb blank sp1' = true -> forallb blank sp2' = true ->
  b1 <> [] ->
  quote :: sp1 ++ equals :: sp2 ++ quote :: v ++ [quote; semicolon]
    = b1 ++ b2 ->
  b2 = quote :: sp1' ++ equals :: sp2' ++ quote :: w ->
  2 <= length w ->
  has_separator (quote :: v) = true.
Proof.
  intros H1 H2 H1' H2' Hne E Hb2 Hw.
  destruct b1 as [|c b1]; [congruence|]. injection E as _ E.
  assert (HX : exists l, quote :: v ++ [quote; semicolon] = l ++ b2).
  { replace (sp1 ++ equals :: sp2 ++ quote :: v ++ [quote; semicolon])
      with ((sp1 ++ equals :: sp2) ++ quote :: v ++ [quote; semicolon])
      in E by (rewrite <- app_assoc; reflexivity).
    apply app_eq_app in E as [l [[E1 E2] | [E1 E2]]].
    - destruct l as [|x l].
      + exists []. rewrite E2; reflexivity.
      + exfalso. rewrite Hb2 in E2. injection E2 as <- _.
        assert (Hin : In quote (sp1 ++ equals :: sp2))
          by (rewrite E1; apply in_or_app; right; left; reflexivity).
        apply in_app_or in Hin as [Hin | [Hin | Hin]].
        * rewrite forallb_forall in H1. specialize (H1 _ Hin). discriminate.
        * discriminate.
        * rewrite forallb_forall in H2. specialize (H2 _ Hin). discriminate.
    - exists l. exact E2. }
  destruct HX as [l HX]. rewrite Hb2 in HX.
  set (S' := l ++ quote :: sp1' ++ equals :: sp2' ++ [quote]).
  assert (E' : (quote :: v) ++ [quote; semicolon] = S' ++ w).
  { unfold S'. cbn [app]. rewrite HX. norm_app. reflexivity. }
  apply app_eq_app in E' as [l2 [[E1 E2] | [E1 E2]]].
  - rewrite E1. unfold S'. norm_app.
    apply has_separator_complete; assumption.
  - assert (l2 = []).
    { apply (f_equal (@length _)) in E2. rewrite length_app in E2.
      simpl in E2. destruct l2; [reflexivity | simpl in E2; lia]. }
    subst l2. rewrite app_nil_r in E1. rewrite <- E1. unfold S'.
    apply has_separator_complete; assumption.
Qed.

Lemma pattern_unfold s :
  re_match pattern s =
  match s with
  | c :: s1 =>
      if eqb_char quote c then
        star any s1
          (fun s' =>
             run pattern_tail s'
               ([] ++ [firstn (length s1 - length s') s1]) done)
      else None
  | [] => None
  end.
Proof. reflexivity. Qed.

(** Soundness: a match of [pattern] has read a declaration at the start
    of the text, and its groups are the key and the value. *)
Lemma pattern_sound s g :
  re_match pattern s = Some g ->
  exists k sp1 sp2 v rest,
    s = declaration_text k sp1 sp2 v ++ rest /\ g = [k; v]
    /\ forallb blank sp1 = true /\ forallb blank sp2 = true
    /\ forallb any k = true /\ forallb any v = true.
Proof.
  rewrite pattern_unfold. intros H. chr H.
  apply star_sound in H as (k & b & -> & Hk & H).
  apply tail_sound in H as (sp1 & sp2 & v & rest & -> & -> & H1 & H2 & Hv).
  rewrite firstn_prefix.
  exists k, sp1, sp2, v, rest. unfold declaration_text. norm_app.
  repeat split; assumption.
Qed.

(** Completeness on declarations: the groups are exactly the key and the
    value when no separator occurs in the value or right at its opening
    quote. *)
Lemma pattern_declaration k sp1 sp2 v :
  forallb any k = true -> forallb any v = true ->
  forallb blank sp1 = true -> forallb blank sp2 = true ->
  has_separator (quote :: v) = false ->
  re_match pattern (declaration_text k sp1 sp2 v) = Some [k; v].
Proof.
  intros Hk Hv H1 H2 Hsep. rewrite pattern_unfold.
  unfold declaration_text. rewrite eqb_char_refl.
  apply star_longest; [assumption | |].
  - rewrite firstn_prefix. apply tail_complete; assumption.
  - intros b1 b2 E Hne _.
    destruct (run pattern_tail b2 _ done) as [g|] eqn:Hrun; [|reflexivity].
    apply tail_sound in Hrun
      as (sp1' & sp2' & v' & rest & Hb2 & _ & H1' & H2' & _).
    assert (Hs : has_separator (quote :: v) = true).
    { eapply later_split;
        [exact H1 | exact H2 | exact H1' | exact H2' | exact Hne
        | exact E | exact Hb2 |].
      rewrite length_app. simpl. lia. }
    congruence.
Qed.
End Grammar.

(** ** Dictionaries *)

Section DictFacts.
Variable V : Type.
Implicit Types (d : Dict.dict V) (k : str) (v : V).

Lemma get_set_eq d k v : Dict.get (Dict.set d k v) k = Some v.
Proof.
  induction d as [|[k' v'] d IH]; simpl.
  - rewrite str_eqb_refl; reflexivity.
  - destruct (Str.eqb k' k) eqn:E; simpl; rewrite E; auto.
Qed.

Lemma get_set_ne d k k' v :
  k <> k' -> Dict.get (Dict.set d k v) k' = Dict.get d k'.
Proof.
  intros Hne. induction d as [|[k0 v0] d IH]; simpl.
  - apply str_eqb_neq in Hne. rewrite Hne; reflexivity.
  - destruct (Str.eqb k0 k) eqn:E; simpl.
    + apply str_eqb_eq in E; subst k0.
      apply str_eqb_neq in Hne. rewrite Hne; reflexivity.
    + rewrite IH; reflexivity.
Qed.

(** Assigning to an absent key appends the item. *)
Lemma set_new d k v : Dict.get d k = None -> Dict.set d k v = d ++ [(k, v)].
Proof.
  induction d as [|[k' v'] d IH]; simpl; [reflexivity|].
  destruct (Str.eqb k' k); [discriminate|].
  intros H; rewrite IH by assumption; reflexivity.
Qed.

Lemma get_None_keys d k : Dict.get d k = None <-> ~ In k (Dict.keys d).
Proof.
  induction d as [|[k' v'] d IH]; simpl; [tauto|].
  destruct (Str.eqb k' k) eqn:E.
  - apply str_eqb_eq in E. split; [discriminate | intros H; exfalso; auto].
  - apply str_eqb_neq in E. rewrite IH. tauto.
Qed.

Lemma get_In d k v : Dict.get d k = Some v -> In (k, v) d.
Proof.
  induction d as [|[k' v'] d IH]; simpl; [discriminate|].
  destruct (Str.eqb k' k) eqn:E.
  - apply str_eqb_eq in E; subst. intros [= ->]; auto.
  - auto.
Qed.

(** In a dictionary, whose keys are distinct, an item is what [get]
    returns for its key. *)
Lemma In_get d k v :
  NoDup (Dict.keys d) -> In (k, v) d -> Dict.get d k = Some v.
Proof.
  induction d as [|[k' v'] d IH]; simpl; [tauto|].
  intros Hnd [H | H]; inversion Hnd as [|? ? Hnot Hnd']; subst.
  - injection H as -> ->. rewrite str_eqb_refl; reflexivity.
  - destruct (Str.eqb k' k) eqn:E; [|auto].
    apply str_eqb_eq in E; subst k'. exfalso; apply Hnot.
    change k with (fst (k, v)). apply in_map, H.
Qed.

Lemma mem_true d k : Dict.mem k d = true <-> In k (Dict.keys d).
Proof.
  unfold Dict.mem. pose proof (get_None_keys d k) as H.
  destruct (Dict.get d k) eqn:E.
  - split; [intros _ | reflexivity].
    destruct (in_dec (list_eq_dec N.eq_dec) k (Dict.keys d)) as [Hin|Hn];
      [assumption|]. apply H in Hn; discriminate.
  - split; [discriminate|]. intros Hin. exfalso. apply H; auto.
Qed.
End DictFacts.

(** ** [readlines] *)

Section Readlines.

Lemma line_ok_LF : line_ok [LF].
Proof.
  intros [|x a] b E; simpl in E.
  - injection E as <-; reflexivity.
  - injection E as _ E. destruct a; discriminate.
Qed.

Lemma line_ok_cons c l :
  eqb_char c LF = false -> (l = [] \/ line_ok l) -> line_ok (c :: l).
Proof.
  intros Hc Hl [|x a] b E; simpl in E; injection E as -> E.
  - rewrite eqb_char_refl in Hc; discriminate.
  - destruct Hl as [-> | Hl]; [destruct a; discriminate|].
    exact (Hl _ _ E).
Qed.

Lemma readlines_ok_bounded n text :
  length text <= n -> Forall line_ok (readlines text).
Proof.
  revert text. induction n as [|n IH]; intros [|c s] Hlen;
    simpl in Hlen; try lia; try (simpl; constructor).
  cbn [readlines]. destruct (eqb_char c LF) eqn:ELF.
  - constructor; [apply line_ok_LF | apply IH; lia].
  - destruct (eqb_char c CR) eqn:ECR.
    + constructor; [apply line_ok_LF|].
      destruct s as [|c2 s2]; [constructor|].
      destruct (eqb_char c2 LF); apply IH; simpl in Hlen |- *; lia.
    + assert (Hs : Forall line_ok (readlines s)) by (apply IH; lia).
      destruct (readlines s) as [|l ls]; constructor.
      * apply line_ok_cons; auto.
      * constructor.
      * inversion Hs; subst. apply line_ok_cons; auto.
      * inversion Hs; assumption.
Qed.

Lemma readlines_ok text : Forall line_ok (readlines text).
Proof. apply (readlines_ok_bounded (n := length text)); lia. Qed.

(** Text followed by at least one more character of an admissible line
    has no line end in it. *)
Lemma line_ok_inner a s c b :
  line_ok (a ++ s ++ c :: b) -> forallb any s = true.
Proof.
  intros H. apply forallb_forall. intros x Hx.
  unfold any. destruct (eqb_char x LF) eqn:E; [|reflexivity].
  apply eqb_char_eq in E; subst x.
  apply in_split in Hx as (s1 & s2 & ->).
  specialize (H (a ++ s1) (s2 ++ c :: b)).
  rewrite <- !app_assoc in H. simpl in H.
  specialize (H eq_refl). destruct s2; discriminate.
Qed.
End Readlines.

(** ** [parse] *)

Section ParseFacts.
Variable report : ParseReporting.t.

(** A match of [pattern] always has two groups. *)
Lemma pattern_groups t g :
  re_match pattern t = Some g -> exists k v, g = [k; v].
Proof.
  intros H. apply pattern_sound in H as (k & _ & _ & v & _ & _ & -> & _).
  eauto.
Qed.

(** The dictionary after one line. *)
Lemma parse_line_dict i line d out :
  fst (parse_line report i line (d, out)) =
  match re_match pattern (strip line) with
  | Some [key; value] =>
      match Dict.get d key with
      | Some _ => d
      | None => Dict.set d key (i, value)
      end
  | _ => d
  end.
Proof.
  unfold parse_line.
  destruct (re_match pattern (strip line)) as [[|k [|v [|x g]]]|];
    try reflexivity.
  destruct (Dict.get d k) as [[first e]|]; reflexivity.
Qed.

Lemma parse_line_skip i line d out :
  re_match pattern (strip line) = None ->
  fst (parse_line report i line (d, out)) = d.
Proof. intros H. rewrite parse_line_dict, H. reflexivity. Qed.

Lemma parse_lines_app i l1 l2 st :
  parse_lines report i (l1 ++ l2) st =
  parse_lines report (i + length l1) l2 (parse_lines report i l1 st).
Proof.
  revert i st. induction l1 as [|l l1 IH]; intros i st; simpl.
  - rewrite Nat.add_0_r; reflexivity.
  - rewrite IH. f_equal. lia.
Qed.

(** First occurrence wins: an entry, once made, is never changed. *)
Lemma parse_line_keeps i line d out k e :
  Dict.get d k = Some e ->
  Dict.get (fst (parse_line report i line (d, out))) k = Some e.
Proof.
  intros H. rewrite parse_line_dict.
  destruct (re_match pattern (strip line)) as [[|k' [|v [|x g]]]|];
    try assumption.
  destruct (Dict.get d k') eqn:E; [assumption|].
  rewrite get_set_ne; [assumption|]. congruence.
Qed.

Lemma parse_lines_keeps i ls st k e :
  Dict.get (fst st) k = Some e ->
  Dict.get (fst (parse_lines report i ls st)) k = Some e.
Proof.
  revert i st. induction ls as [|l ls IH]; intros i [d out] H; simpl;
    [assumption|].
  apply IH, parse_line_keeps, H.
Qed.

(** A matching line with a new key makes the entry. *)
Lemma parse_line_new i line d out k v :
  re_match pattern (strip line) = Some [k; v] ->
  Dict.get d k = None ->
  Dict.get (fst (parse_line report i line (d, out))) k = Some (i, v).
Proof.
  intros Hm Hk. rewrite parse_line_dict, Hm, Hk. apply get_set_eq.
Qed.

(** Where an entry comes from. *)
Lemma parse_line_origin i line d out k n v :
  Dict.get (fst (parse_line report i line (d, out))) k = Some (n, v) ->
  Dict.get d k = Some (n, v)
  \/ (n = i /\ re_match pattern (strip line) = Some [k; v]).
Proof.
  rewrite parse_line_dict.
  destruct (re_match pattern (strip line)) as [[|k' [|v' [|x g]]]|];
    auto.
  destruct (Dict.get d k') eqn:E; auto.
  destruct (list_eq_dec N.eq_dec k' k) as [->|Hne].
  - rewrite get_set_eq. intros [= <- <-]; auto.
  - rewrite get_set_ne by assumption. auto.
Qed.

Lemma parse_lines_origin i ls st k n v :
  Dict.get (fst (parse_lines report i ls st)) k = Some (n, v) ->
  Dict.get (fst st) k = Some (n, v)
  \/ exists j line,
       n = i + j /\ nth_error ls j = Some line
       /\ re_match pattern (strip line) = Some [k; v].
Proof.
  revert i st. induction ls as [|l ls IH]; intros i [d out] H; simpl in H;
    [auto|].
  apply IH in H as [H | (j & line & -> & Hj & Hm)].
  - apply parse_line_origin in H as [H | [-> Hm]]; [auto|].
    right. exists 0, l. rewrite Nat.add_0_r. auto.
  - right. exists (S j), line. repeat split; auto; lia.
Qed.

(** Keys stay distinct. *)
Lemma parse_line_nodup i line d out :
  NoDup (Dict.keys d) ->
  NoDup (Dict.keys (fst (parse_line report i line (d, out)))).
Proof.
  intros H. rewrite parse_line_dict.
  destruct (re_match pattern (strip line)) as [[|k' [|v' [|x g]]]|];
    try assumption.
  destruct (Dict.get d k') eqn:E; [assumption|].
  rewrite set_new by assumption. unfold Dict.keys. rewrite map_app.
  simpl. apply NoDup_app; [assumption | repeat constructor; auto |].
  intros k Hin [<- | []]. apply get_None_keys in E. auto.
Qed.

Lemma parse_lines_nodup i ls st :
  NoDup (Dict.keys (fst st)) ->
  NoDup (Dict.keys (fst (parse_lines report i ls st))).
Proof.
  revert i st. induction ls as [|l ls IH]; intros i [d out] H; simpl;
    [assumption|].
  apply IH, parse_line_nodup, H.
Qed.

(** [parse] on a readable file. *)
Lemma parse_ok fs filepath text :
  read_text fs filepath = Some text ->
  fst (parse fs filepath report)
  = Ok (fst (parse_lines report 0 (readlines text)
               ([], [ParsingFile filepath]))).
Proof.
  intros H. unfold parse. rewrite H.
  destruct (parse_lines report 0 (readlines text) _); reflexivity.
Qed.
End ParseFacts.

(** ** The claims about [parse] *)

Section FirstOccurrence.
Variable report : ParseReporting.t.

Lemma parse_lines_first i ls d out j line k v :
  nth_error ls j = Some line ->
  re_match pattern (strip line) = Some [k; v] ->
  Dict.get d k = None ->
  first_for ls j k ->
  Dict.get (fst (parse_lines report i ls (d, out))) k = Some (i + j, v).
Proof.
  revert i d out j. induction ls as [|l ls IH]; intros i d out j Hj Hm Hd Hf.
  - destruct j; discriminate.
  - destruct j as [|j]; cbn [nth_error parse_lines] in Hj |- *.
    + injection Hj as ->. apply parse_lines_keeps.
      rewrite Nat.add_0_r. apply parse_line_new; assumption.
    + destruct (parse_line report i l (d, out)) as [d' out'] eqn:E.
      replace (i + S j) with (S i + j) by lia.
      apply IH; try assumption.
      * destruct (Dict.get d' k) as [[n v0]|] eqn:Hd'; [|reflexivity].
        exfalso.
        assert (H : Dict.get (fst (parse_line report i l (d, out))) k
                    = Some (n, v0)) by (rewrite E; exact Hd').
        apply parse_line_origin in H as [H | [_ H]]; [congruence|].
        apply (Hf 0 l v0); [lia | reflexivity | exact H].
      * intros j' line' v' Hlt Hn. apply (Hf (S j') line' v'); [lia|exact Hn].
Qed.
End FirstOccurrence.

(** C6. A file with several matching lines for one key: [parse] raises
    nothing and keeps the first of them.  The entry of the key carries the
    line number and the value of the earliest matching line, it is the only
    item with that key, and no later matching line of the key is in the
    result. *)
Theorem parse_keeps_first_occurrence
  (fs : filesystem) (filepath : str) (report : ParseReporting.t)
  (text : str) (i : nat) (line k v : str) :
  read_text fs filepath = Some text ->
  nth_error (readlines text) i = Some line ->
  re_match pattern (strip line) = Some [k; v] ->
  first_for (readlines text) i k ->
  exists d,
    fst (parse fs filepath report) = Ok d
    /\ Dict.get d k = Some (i, v)
    /\ (forall e, In (k, e) (Dict.items d) -> e = (i, v))
    /\ (forall j line' v',
          i < j -> nth_error (readlines text) j = Some line' ->
          re_match pattern (strip line') = Some [k; v'] ->
          ~ In (k, (j, v')) (Dict.items d)).
Proof.
  intros Hread Hi Hm Hfirst. eexists. split; [apply parse_ok, Hread|].
  set (d := fst (parse_lines report 0 (readlines text) _)).
  assert (Hget : Dict.get d k = Some (i, v)).
  { unfold d. change i with (0 + i).
    eapply parse_lines_first; eauto. }
  assert (Hnd : NoDup (Dict.keys d)).
  { unfold d. apply parse_lines_nodup. constructor. }
  assert (Huniq : forall e, In (k, e) (Dict.items d) -> e = (i, v)).
  { intros e He. apply (In_get _ _ _ Hnd) in He. congruence. }
  repeat split; [exact Hget | exact Huniq |].
  intros j line' v' Hlt _ _ Hin. apply Huniq in Hin.
  injection Hin as -> _. lia.
Qed.

Section DeclarationLines.
Variable report : ParseReporting.t.

(** The entry of a key comes from the first line that declares it. *)
Lemma parse_first_entry fs filepath text i line k v :
  read_text fs filepath = Some text ->
  nth_error (readlines text) i = Some line ->
  re_match pattern (strip line) = Some [k; v] ->
  first_for (readlines text) i k ->
  exists d,
    fst (parse fs filepath report) = Ok d
    /\ NoDup (Dict.keys d)
    /\ Dict.get d k = Some (i, v).
Proof.
  intros Hread Hi Hm Hfirst. eexists. split; [apply parse_ok, Hread|].
  split.
  - apply parse_lines_nodup. constructor.
  - change i with (0 + i). eapply parse_lines_first; eauto.
Qed.

Lemma isspace_quote : isspace quote = false.
Proof. reflexivity. Qed.

Lemma isspace_semicolon : isspace semicolon = false.
Proof. reflexivity. Qed.

(** Trimming a padded declaration gives the declaration. *)
Lemma strip_declaration ws1 ws2 k sp1 sp2 v :
  forallb isspace ws1 = true -> forallb isspace ws2 = true ->
  strip (ws1 ++ declaration_text k sp1 sp2 v ++ ws2)
  = declaration_text k sp1 sp2 v.
Proof.
  intros H1 H2.
  replace (declaration_text k sp1 sp2 v)
    with (quote :: (k ++ quote :: sp1 ++ equals :: sp2 ++ quote :: v
                    ++ [quote]) ++ [semicolon])
    by (unfold declaration_text; norm_app; reflexivity).
  apply strip_core; auto.
Qed.

End DeclarationLines.

(** C5. A line of index [i] that is a declaration of a fresh key [K] with
    value [V], whatever the white space around it and the number of spaces
    around the equals sign: [parse] maps [K] to [(i, V)].  Well-formed
    means that the text between key and value (double quote, spaces,
    equals sign, spaces, double quote) does not occur again in the value
    or right at its opening quote. *)
Theorem parse_recovers_declaration
  (fs : filesystem) (filepath : str) (report : ParseReporting.t)
  (text : str) (i : nat) (ws1 ws2 sp1 sp2 K V : str) :
  read_text fs filepath = Some text ->
  nth_error (readlines text) i
  = Some (ws1 ++ declaration_text K sp1 sp2 V ++ ws2) ->
  forallb isspace ws1 = true -> forallb isspace ws2 = true ->
  forallb blank sp1 = true -> forallb blank sp2 = true ->
  has_separator (quote :: V) = false ->
  first_for (readlines text) i K ->
  exists d,
    fst (parse fs filepath report) = Ok d /\ Dict.get d K = Some (i, V).
Proof.
  intros Hread Hi Hw1 Hw2 Hs1 Hs2 Hsep Hfresh.
  assert (Hok : line_ok (ws1 ++ declaration_text K sp1 sp2 V ++ ws2)).
  { pose proof (readlines_ok text) as Hall. rewrite Forall_forall in Hall.
    apply Hall. eapply nth_error_In; eassumption. }
  assert (HK : forallb any K = true).
  { apply (line_ok_inner (ws1 ++ [quote]) K quote
             (sp1 ++ equals :: sp2 ++ quote :: V
              ++ [quote; semicolon] ++ ws2)).
    unfold declaration_text in Hok. revert Hok. norm_app. exact (fun H => H). }
  assert (HV : forallb any V = true).
  { apply (line_ok_inner
             (ws1 ++ quote :: K ++ quote :: sp1 ++ equals :: sp2 ++ [quote])
             V quote (semicolon :: ws2)).
    unfold declaration_text in Hok. revert Hok. norm_app. exact (fun H => H). }
  destruct (parse_first_entry report fs filepath (text := text) (i := i)
              (line := ws1 ++ declaration_text K sp1 sp2 V ++ ws2)
              (k := K) (v := V)) as (d & Hd & _ & Hget); auto.
  - rewrite strip_declaration by assumption.
    apply pattern_declaration; assumption.
  - exists d; auto.
Qed.

(** C5, on the second line of the example base file: padded with two
    spaces, no space before the equals sign and two after it. *)
Lemma parse_recovers_declaration_witness :
  exists d,
    fst (parse example_fs base_path ParseReporting.default) = Ok d
    /\ Dict.get d (lit "bye") = Some (1, lit "Bye %@").
Proof.
  apply parse_recovers_declaration
    with (text := base_text) (ws1 := [space; space]) (ws2 := [LF])
         (sp1 := []) (sp2 := [space; space]);
    try reflexivity.
  intros j line v Hlt Hj.
  destruct j as [|j]; [|lia].
  vm_compute in Hj. injection Hj as <-. vm_compute. discriminate.
Defined.

(** C6, on the example base file: the key of its first line comes back on
    the fourth line. *)
Lemma parse_keeps_first_occurrence_witness :
  exists d,
    fst (parse example_fs base_path ParseReporting.default) = Ok d
    /\ Dict.get d (lit "hi") = Some (0, lit "Hello")
    /\ (forall e, In (lit "hi", e) (Dict.items d) -> e = (0, lit "Hello"))
    /\ (forall j line' v',
          0 < j -> nth_error (readlines base_text) j = Some line' ->
          re_match pattern (strip line') = Some [lit "hi"; v'] ->
          ~ In (lit "hi", (j, v')) (Dict.items d)).
Proof.
  apply parse_keeps_first_occurrence
    with (line := declaration_text (lit "hi") [space] [space] (lit "Hello")
                  ++ [LF]);
    try reflexivity.
  intros j line v Hlt. lia.
Defined.


(** ** Declarations followed by more text *)

Section TrailingText.









End TrailingText.



(** A file that opens but is not valid UTF-8: the decoding error leaves
    [parse]. *)
Example parse_undecodable :
  let fs :=
    {| read_text := fun _ => None;
       undecodable := fun _ => true;
       is_dir := fun _ => false;
       is_file := fun _ => true;
       rglob := fun _ => [] |} in
  parse fs base_path ParseReporting.default
  = (Raise (UnicodeDecodeError base_path), [ParsingFile base_path]).
Proof. reflexivity. Qed.

(** ** The claims about [get_missing_declarations] *)

Section MissingFacts.
Variables (base_parse comparison_parse : parsed).
Variables (comparison_file : str) (report : MissingReporting.t).

Lemma collect_missing_filter items acc :
  collect_missing items comparison_parse acc
  = acc ++ filter (absent_from comparison_parse) items.
Proof.
  revert acc. induction items as [|[k e] items IH]; intros acc; simpl.
  - symmetry; apply app_nil_r.
  - rewrite IH. unfold absent_from at 2. simpl.
    destruct (negb (Dict.mem k comparison_parse)); simpl;
      [rewrite <- app_assoc|]; reflexivity.
Qed.

Lemma get_missing_declarations_value :
  fst (get_missing_declarations base_parse comparison_file comparison_parse
         report)
  = filter (absent_from comparison_parse) (Dict.items base_parse).
Proof.
  unfold get_missing_declarations. cbn [fst].
  apply collect_missing_filter.
Qed.

Lemma NoDup_keys_filter (f : declaration -> bool) (l : list declaration) :
  NoDup (map fst l) -> NoDup (map fst (filter f l)).
Proof.
  induction l as [|x l IH]; simpl; [auto|].
  intros H; inversion H as [|? ? Hnot Hnd]; subst.
  destruct (f x); simpl; [|auto].
  constructor; [|auto].
  intros Hin. apply Hnot. apply in_map_iff in Hin as (y & Hy & Hin).
  apply filter_In in Hin as [Hin _]. rewrite <- Hy. apply in_map, Hin.
Qed.

Lemma filter_none (f : declaration -> bool) (l : list declaration) :
  (forall x, In x l -> f x = false) -> filter f l = [].
Proof.
  induction l as [|x l IH]; simpl; [reflexivity|].
  intros H. rewrite (H x) by auto. apply IH. auto.
Qed.

Lemma mem_false k (d : parsed) : Dict.mem k d = false <-> Dict.get d k = None.
Proof. unfold Dict.mem. destruct (Dict.get d k); split; congruence. Qed.
End MissingFacts.

(** C1. The list returned is the list of base items whose key the
    comparison lacks, in the order of the base items and with their line
    number and value: an item is returned exactly when it is the base entry
    of a key absent from the comparison, no key is returned twice, and
    nothing is returned when the comparison has every base key. *)
Theorem get_missing_declarations_exact
  (base_parse comparison_parse : parsed) (comparison_file : str)
  (report : MissingReporting.t) :
  NoDup (Dict.keys base_parse) ->
  let missing :=
    fst (get_missing_declarations base_parse comparison_file
           comparison_parse report) in
  missing = filter (absent_from comparison_parse) (Dict.items base_parse)
  /\ (forall k e,
        In (k, e) missing
        <-> Dict.get base_parse k = Some e
            /\ Dict.get comparison_parse k = None)
  /\ NoDup (map fst missing)
  /\ ((forall k, Dict.mem k base_parse = true ->
                 Dict.mem k comparison_parse = true) ->
      missing = []).
Proof.
  intros Hnd missing. subst missing.
  rewrite get_missing_declarations_value.
  split; [reflexivity|]. split; [|split].
  - intros k e. rewrite filter_In. unfold absent_from. cbn [fst].
    rewrite negb_true_iff, mem_false. split.
    + intros [Hin Hc]. split; [apply In_get; assumption | assumption].
    + intros [Hb Hc]. split; [apply get_In; assumption | assumption].
  - apply NoDup_keys_filter, Hnd.
  - intros Hall. apply filter_none. intros [k e] Hin.
    unfold absent_from. cbn [fst]. rewrite Hall; [reflexivity|].
    apply mem_true. change k with (fst (k, e)). apply in_map, Hin.
Qed.

(** C1, on the example dictionaries. *)
Lemma get_missing_declarations_exact_witness :
  let missing :=
    fst (get_missing_declarations example_base french_path
           example_comparison MissingReporting.default) in
  missing = filter (absent_from example_comparison) (Dict.items example_base)
  /\ (forall k e,
        In (k, e) missing
        <-> Dict.get example_base k = Some e
            /\ Dict.get example_comparison k = None)
  /\ NoDup (map fst missing)
  /\ ((forall k, Dict.mem k example_base = true ->
                 Dict.mem k example_comparison = true) ->
      missing = []).
Proof.
  apply (get_missing_declarations_exact example_base example_comparison
           french_path MissingReporting.default).
  repeat constructor; simpl; intuition discriminate.
Defined.

(** C8. The format-specifier subset is made of the missing declarations
    whose value contains the two characters percent sign and at sign, and
    of nothing else; it is reported (when warnings are on and there is
    something to report) and not taken out: the list returned holds every
    base item whose key is not among the keys of the comparison, whatever
    the values hold. *)
Theorem string_format_lines_overlay
  (base_parse comparison_parse : parsed) (comparison_file : str)
  (report : MissingReporting.t) :
  let result :=
    get_missing_declarations base_parse comparison_file comparison_parse
      report in
  let subset := string_format_lines (fst result) in
  (forall x,
     In x subset
     <-> In x (fst result) /\ exists u w, snd (snd x) = u ++ lit "%@" ++ w)
  /\ (forall x,
        In x (fst result) ->
        (forall u w, snd (snd x) <> u ++ lit "%@" ++ w) ->
        ~ In x subset)
  /\ (forall x,
        In x (fst result)
        <-> In x (Dict.items base_parse)
            /\ ~ In (fst x) (map fst (Dict.items comparison_parse)))
  /\ (MissingReporting.string_format_warnings report = false
      \/ subset = []
      \/ In (FormatWarning comparison_file (table_of subset)) (snd result)).
Proof.
  intros result subset.
  assert (Hsub : forall x,
             In x subset
             <-> In x (fst result)
                 /\ exists u w, snd (snd x) = u ++ lit "%@" ++ w).
  { intros x. unfold subset, string_format_lines.
    rewrite filter_In, contains_spec. reflexivity. }
  split; [exact Hsub|]. split; [|split].
  - intros x _ Hno Hin. apply Hsub in Hin as [_ (u & w & E)].
    exact (Hno u w E).
  - intros x. unfold result. rewrite get_missing_declarations_value.
    rewrite filter_In. unfold absent_from.
    rewrite negb_true_iff, mem_false, get_None_keys. reflexivity.
  - destruct (MissingReporting.string_format_warnings report) eqn:Hw;
      [right | left; reflexivity].
    destruct subset as [|x l] eqn:Hs; [left; reflexivity | right].
    unfold result, get_missing_declarations. cbn [snd fst].
    rewrite Hw. fold (string_format_lines
                        (collect_missing (Dict.items base_parse)
                           comparison_parse [])).
    unfold subset, result, get_missing_declarations in Hs. cbn [fst] in Hs.
    rewrite Hs. apply in_or_app. right. left. reflexivity.
Qed.

(** ** The claims about [get_language] *)

Section LanguageFacts.

Lemma language_unfold s :
  re_match language_pattern s =
  rep lower 2 3 s
    (fun s1 =>
       match
         match s1 with
         | c :: s2 =>
             if eqb_char hyphen c then
               rep alpha 2 2 s2
                 (fun s3 =>
                    run (Lit lproj) s3
                      ([] ++ [firstn (length s - length s3) s]) done)
             else None
         | [] => None
         end
       with
       | Some x => Some x
       | None =>
           run (Lit lproj) s1 ([] ++ [firstn (length s - length s1) s]) done
       end).
Proof. reflexivity. Qed.

Lemma lproj_chars : lproj = [dot; 108; 112; 114; 111; 106]%N.
Proof. reflexivity. Qed.

Lemma run_lproj rest caps : run (Lit lproj) (lproj ++ rest) caps done = Some caps.
Proof. reflexivity. Qed.

Lemma run_lproj_sound s caps g :
  run (Lit lproj) s caps done = Some g ->
  exists rest, s = lproj ++ rest /\ g = caps.
Proof.
  rewrite lproj_chars. unfold done. cbn [run Lit]. intros H.
  do 6 chr H. injection H as <-. eexists. split; reflexivity.
Qed.

Lemma lower_alpha c : lower c = true -> alpha c = true.
Proof. unfold alpha. intros ->; reflexivity. Qed.

Lemma lower_code_char c : lower c = true -> code_char c = true.
Proof. unfold code_char. intros H; rewrite (lower_alpha _ H); reflexivity. Qed.

(** Soundness: a match of [language_pattern] has read a run of code
    characters and the suffix, and its group is that run. *)
Lemma language_sound s g :
  re_match language_pattern s = Some g ->
  exists code rest,
    s = code ++ lproj ++ rest /\ g = [code]
    /\ forallb code_char code = true.
Proof.
  rewrite language_unfold. intros H.
  apply rep_sound in H as (a & s1 & -> & Ha & _ & H).
  assert (Ha' : forallb code_char a = true).
  { apply forallb_forall. intros x Hx.
    apply lower_code_char. rewrite forallb_forall in Ha. auto. }
  destruct s1 as [|c s2].
  - apply run_lproj_sound in H as (rest & E & _). discriminate.
  - destruct (eqb_char hyphen c) eqn:Ec.
    + apply eqb_char_eq in Ec; subst c.
      destruct (rep alpha 2 2 s2 _) as [x|] eqn:Hr.
      * injection H as ->.
        apply rep_sound in Hr as (r & s3 & -> & Hr & _ & H).
        apply run_lproj_sound in H as (rest & -> & ->).
        exists (a ++ hyphen :: r), rest. repeat split.
        -- rewrite <- app_assoc. reflexivity.
        -- replace (a ++ hyphen :: r ++ lproj ++ rest)
             with ((a ++ hyphen :: r) ++ lproj ++ rest)
             by (rewrite <- app_assoc; reflexivity).
           rewrite firstn_prefix. reflexivity.
        -- rewrite forallb_app, Ha'. simpl.
           apply forallb_forall. intros x Hx. unfold code_char.
           rewrite forallb_forall in Hr. rewrite (Hr _ Hx). reflexivity.
      * apply run_lproj_sound in H as (rest & E & _). discriminate.
    + apply run_lproj_sound in H as (rest & E & ->).
      exists a, rest. rewrite E, firstn_prefix. auto.
Qed.

Lemma search_sound r s g :
  re_search r s = Some g ->
  exists u w, s = u ++ w /\ re_match r w = Some g.
Proof.
  induction s as [|c s IH]; cbn [re_search].
  - destruct (re_match r []) eqn:E; [|discriminate].
    intros [= <-]. exists [], []. auto.
  - destruct (re_match r (c :: s)) eqn:E.
    + intros [= <-]. exists [], (c :: s). auto.
    + intros H. destruct (IH H) as (u & w & -> & Hw).
      exists (c :: u), w. auto.
Qed.

(** The search passes over a prefix in which no match starts. *)
Lemma search_skip r p t :
  (forall u w, p = u ++ w -> w <> [] -> re_match r (w ++ t) = None) ->
  re_search r (p ++ t) = re_search r t.
Proof.
  induction p as [|c p IH]; intros H; [reflexivity|].
  pose proof (H [] (c :: p) eq_refl) as H0.
  cbn [app] in H0 |- *. cbn [re_search]. rewrite H0 by discriminate.
  apply IH. intros u w -> Hw. apply (H (c :: u) w); auto.
Qed.

(** Greediness of the bounded repetition: it takes the whole run [a]
    when it may not or cannot take more. *)
Lemma rep_greedy A p lo hi a b (k : str -> option A) r :
  forallb p a = true ->
  lo <= length a <= hi ->
  (length a = hi \/ forall c b', b = c :: b' -> p c = false) ->
  k b = Some r ->
  rep p lo hi (a ++ b) k = Some r.
Proof.
  revert lo hi. induction a as [|x a IH]; intros lo hi Ha Hlen Hstop Hk.
  - simpl in Hlen. assert (lo = 0) by lia. subst lo.
    destruct hi as [|hi]; [exact Hk|].
    destruct b as [|c b']; [exact Hk|]. cbn [app rep].
    destruct Hstop as [Hstop | Hstop]; [discriminate|].
    rewrite (Hstop c b' eq_refl). exact Hk.
  - simpl in Ha, Hlen. apply andb_true_iff in Ha as [Hx Ha].
    destruct hi as [|hi]; [lia|]. cbn [app rep]. rewrite Hx.
    rewrite (IH (pred lo) hi); auto; [lia|].
    destruct Hstop as [Hstop | Hstop]; [left; simpl in Hstop; lia | auto].
Qed.

(** The shape of a language code. *)
Lemma language_code_shape code :
  is_language_code code = true ->
  exists primary region,
    code = primary ++ region
    /\ forallb lower primary = true
    /\ 2 <= length primary <= 3
    /\ (region = []
        \/ exists r1 r2,
             region = [hyphen; r1; r2]
             /\ alpha r1 = true /\ alpha r2 = true).
Proof.
  intros H. destruct code as [|a [|b r]]; try discriminate.
  cbn [is_language_code] in H.
  apply andb_true_iff in H as [H Hr]. apply andb_true_iff in H as [Ha Hb].
  assert (Hregion : forall t, is_region t = true ->
            t = [] \/ exists r1 r2,
                        t = [hyphen; r1; r2]
                        /\ alpha r1 = true /\ alpha r2 = true).
  { intros [|h [|r1 [|r2 [|x t]]]]; cbn; try discriminate; auto.
    intros Ht. apply andb_true_iff in Ht as [Ht H2].
    apply andb_true_iff in Ht as [Hh H1].
    apply eqb_char_eq in Hh; subst h. right; eauto. }
  apply orb_true_iff in Hr as [Hr | Hr].
  - exists [a; b], r. cbn [forallb length app]. rewrite Ha, Hb.
    repeat split; auto.
  - destruct r as [|c r]; [discriminate|].
    apply andb_true_iff in Hr as [Hc Hr].
    exists [a; b; c], r. cbn [forallb length app]. rewrite Ha, Hb, Hc.
    repeat split; auto.
Qed.

(** At the start of a language code followed by the suffix, the pattern
    matches and its group is the code. *)
Lemma language_match code rest :
  is_language_code code = true ->
  re_match language_pattern (code ++ lproj ++ rest) = Some [code].
Proof.
  intros H.
  apply language_code_shape in H
    as (primary & region & -> & Hp & Hlen & Hregion).
  rewrite language_unfold, <- app_assoc.
  destruct Hregion as [-> | (r1 & r2 & -> & H1 & H2)].
  - apply rep_greedy; auto.
    + right. intros c b' E. rewrite lproj_chars in E.
      injection E as <- _. reflexivity.
    + cbn [app]. rewrite firstn_prefix, run_lproj, app_nil_r. reflexivity.
  - apply rep_greedy; auto.
    + right. intros c b' E. injection E as <- _. reflexivity.
    + cbn [app]. rewrite eqb_char_refl.
      change (r1 :: r2 :: lproj ++ rest)
        with ([r1; r2] ++ lproj ++ rest).
      erewrite rep_greedy; [reflexivity | | | |].
      * cbn [forallb]. rewrite H1, H2. reflexivity.
      * cbn [length]. lia.
      * left. reflexivity.
      * rewrite run_lproj.
        replace (primary ++ hyphen :: [r1; r2] ++ lproj ++ rest)
          with ((primary ++ [hyphen; r1; r2]) ++ lproj ++ rest)
          by (rewrite <- app_assoc; reflexivity).
        rewrite firstn_prefix. reflexivity.
Qed.
End LanguageFacts.

Section LanguageSearch.

Lemma code_char_not_slash c : code_char c = true -> c <> slash.
Proof. intros H ->. discriminate H. Qed.

(** No match starts in what precedes a segment, when the suffix does
    not occur there. *)
Lemma no_match_before_segment p' t u w :
  contains lproj (p' ++ [slash]) = false ->
  p' ++ [slash] = u ++ w -> w <> [] ->
  re_match language_pattern (w ++ t) = None.
Proof.
  intros Hno E Hw.
  destruct (re_match language_pattern (w ++ t)) as [g|] eqn:Hm;
    [exfalso | reflexivity].
  apply language_sound in Hm as (code & rest & Es & _ & Hcode).
  assert (Hw' : exists w', w = w' ++ [slash]).
  { destruct (exists_last Hw) as (w' & x & ->).
    rewrite app_assoc in E. apply app_inj_tail in E as [_ <-]. eauto. }
  destruct Hw' as [w' ->].
  rewrite app_assoc in Es.
  apply app_eq_app in Es as [l [[E1 E2] | [E1 E2]]].
  - assert (Hc : contains lproj (p' ++ [slash]) = true).
    { apply contains_spec. exists (u ++ code), l.
      rewrite E, E1, <- !app_assoc. reflexivity. }
    congruence.
  - assert (Hin : In slash (code ++ lproj)).
    { rewrite E1. apply in_or_app. left. apply in_or_app. right.
      left; reflexivity. }
    apply in_app_or in Hin as [Hin | Hin].
    + rewrite forallb_forall in Hcode.
      exact (code_char_not_slash (Hcode _ Hin) eq_refl).
    + rewrite lproj_chars in Hin. simpl in Hin.
      repeat (destruct Hin as [Hin | Hin]; [discriminate Hin|]).
      exact Hin.
Qed.

Lemma get_language_segment p code rest :
  is_language_code code = true ->
  segment_start p ->
  contains lproj p = false ->
  get_language (p ++ code ++ lproj ++ rest) = Ok code.
Proof.
  intros Hcode Hp Hno. unfold get_language.
  assert (Hs : re_search language_pattern (p ++ code ++ lproj ++ rest)
               = re_search language_pattern (code ++ lproj ++ rest)).
  { destruct Hp as [-> | [p' ->]]; [reflexivity|].
    apply search_skip. intros u w E Hw.
    eapply no_match_before_segment; eassumption. }
  rewrite Hs.
  destruct code as [|a code]; [discriminate|].
  cbn [app re_search].
  change (a :: code ++ lproj ++ rest) with ((a :: code) ++ lproj ++ rest).
  rewrite (@language_match (a :: code) rest Hcode). reflexivity.
Qed.

Lemma get_language_unresolved path :
  contains lproj path = false ->
  get_language path = Raise (ValueError path).
Proof.
  intros Hno. unfold get_language.
  destruct (re_search language_pattern path) as [g|] eqn:Hs;
    [exfalso | reflexivity].
  apply search_sound in Hs as (u & w & -> & Hm).
  apply language_sound in Hm as (code & rest & -> & _).
  assert (Hc : contains lproj (u ++ code ++ lproj ++ rest) = true).
  { apply contains_spec. exists (u ++ code), rest.
    rewrite <- app_assoc. reflexivity. }
  congruence.
Qed.
End LanguageSearch.

(** ** The claims about translation *)

Section TranslationFacts.

Lemma zip_translations_objects missing_decls ts :
  zip_translations missing_decls (map PObject ts)
  = Ok (map attach (combine missing_decls ts)).
Proof.
  revert ts. induction missing_decls as [|d ds IH]; intros [|t ts];
    try reflexivity.
  cbn [map zip_translations text_of bind combine]. rewrite IH.
  reflexivity.
Qed.

Lemma zip_translations_nil missing_decls :
  zip_translations missing_decls [] = Ok [].
Proof. destruct missing_decls; reflexivity. Qed.

(** Alignment, for a dependency whose answers carry a [text]
    attribute: position by position, the declaration and the translation
    of its value. *)
Lemma object_stub_aligned f missing_decls dest src :
  get_translated_declarations (object_stub f) missing_decls dest src
  = (Ok (map (fun d : declaration => (fst d, snd d, f (snd (snd d))))
           missing_decls), []).
Proof.
  unfold get_translated_declarations, object_stub. f_equal.
  induction missing_decls as [|d ds IH]; [reflexivity|].
  cbn [map zip_translations text_of bind]. rewrite IH. reflexivity.
Qed.

End TranslationFacts.

(** C10. With the class shipped in [translate.py] nothing is ever
    translated: whatever the missing declarations and the languages, the
    list returned is empty. *)
Theorem shipped_translator_returns_nothing
  (missing_decls : list declaration) (dest src : str) :
  get_translated_declarations Translator.a_batch_translate missing_decls
    dest src
  = (Ok [], [NotImplemented]).
Proof.
  unfold get_translated_declarations, Translator.a_batch_translate.
  rewrite zip_translations_nil. reflexivity.
Qed.

(** C2, as stated, fails: one text is submitted to the shipped class, the
    response is empty, and an empty list is returned without any error. *)
Lemma length_mismatch_goes_unnoticed :
  let missing_decls := [(lit "bye", (1, lit "Bye"))] in
  length (fst (Translator.a_batch_translate (texts_of missing_decls)
                 (lit "en") (lit "fr")))
  <> length (texts_of missing_decls)
  /\ fst (get_translated_declarations Translator.a_batch_translate
            missing_decls (lit "fr") (lit "en"))
     = Ok [].
Proof. split; [discriminate | reflexivity]. Qed.

(** C2, amended.  A response of objects with a [text] attribute, of any
    length: no error is raised, and the list returned pairs the
    declarations and the translations position by position up to the
    shorter of the two lengths. *)
Theorem length_mismatch_truncates
  (translator : batch_translate) (missing_decls : list declaration)
  (dest src : str) (ts : list str) (out : list event) :
  translator (texts_of missing_decls) src dest = (map PObject ts, out) ->
  get_translated_declarations translator missing_decls dest src
  = (Ok (map attach (combine missing_decls ts)), out)
  /\ length (map attach (combine missing_decls ts))
     = Nat.min (length missing_decls) (length ts).
Proof.
  intros H. unfold get_translated_declarations.
  fold (texts_of missing_decls). rewrite H.
  rewrite zip_translations_objects, length_map, length_combine. auto.
Qed.

(** C2 amended: two declarations, one translation. *)
Lemma length_mismatch_truncates_witness :
  get_translated_declarations short_stub example_missing (lit "fr") (lit "en")
  = (Ok [(lit "bye", (1, lit "Bye"), lit "Au revoir")], [])
  /\ length [(lit "bye", (1, lit "Bye"), lit "Au revoir")]
     = Nat.min (length example_missing) 1.
Proof.
  apply (length_mismatch_truncates short_stub example_missing
           (lit "fr") (lit "en") [lit "Au revoir"] (out := [])).
  reflexivity.
Defined.


(** ** Further facts about the two patterns *)

(** A tab next to the equals sign is not spacing for [pattern]: the line
    does not match. *)
Example tab_is_not_spacing :
  re_match pattern
    (quote :: lit "a" ++ quote :: 9%N :: equals :: quote :: lit "b"
     ++ [quote; semicolon])
  = None.
Proof. reflexivity. Qed.

(** Greediness: when the separator occurs twice, the key runs up to the
    last occurrence. *)
Example greedy_key :
  re_match pattern
    (declaration_text (lit "a") [space] [space]
       (lit "b" ++ quote :: lit " = " ++ quote :: lit "c"))
  = Some [lit "a" ++ quote :: lit " = " ++ quote :: lit "b"; lit "c"].
Proof. reflexivity. Qed.

(** Greediness: with two declarations on a line, the value runs up to the
    last closing quote and semicolon. *)
Example greedy_value :
  re_match pattern
    (quote :: lit "a" ++ quote :: equals :: quote :: lit "b"
     ++ quote :: semicolon :: quote :: lit "c" ++ [quote; semicolon])
  = Some [lit "a"; lit "b" ++ quote :: semicolon :: quote :: lit "c"].
Proof. reflexivity. Qed.

(** The search of [get_language] does not stop at segment borders: the
    last three letters before the suffix are found inside a longer name. *)
Example get_language_inside_name :
  get_language (lit "app/english.lproj/Localizable.strings")
  = Ok (lit "ish").
Proof. reflexivity. Qed.

(** The leftmost locale directory wins. *)
Example get_language_leftmost :
  get_language (lit "de.lproj/fr.lproj/Localizable.strings") = Ok (lit "de").
Proof. reflexivity. Qed.

(** An upper-case code is not resolved. *)
Example get_language_upper_case :
  get_language (lit "app/EN.lproj/Localizable.strings")
  = Raise (ValueError (lit "app/EN.lproj/Localizable.strings")).
Proof. reflexivity. Qed.

(** The scenario of the specification: the base file declares hi and bye,
    the comparison file only hi. *)
Example missing_in_scenario :
  fst (get_missing_declarations
         [(lit "hi", (0, lit "Hello")); (lit "bye", (1, lit "Bye"))]
         french_path [(lit "hi", (0, lit "Salut"))]
         MissingReporting.default)
  = [(lit "bye", (1, lit "Bye"))].
Proof. reflexivity. Qed.

(** Nor does it ask that the suffix ends the segment. *)
Example get_language_longer_suffix :
  get_language (lit "ab.lprojx/Localizable.strings") = Ok (lit "ab").
Proof. reflexivity. Qed.

(** ** More about [parse] *)

Section ParseMore.

(** Where a new entry comes from, with the state of the key before. *)
Lemma parse_line_origin_new report i line d out k n v :
  Dict.get (fst (parse_line report i line (d, out))) k = Some (n, v) ->
  Dict.get d k = Some (n, v)
  \/ (Dict.get d k = None /\ n = i
      /\ re_match pattern (strip line) = Some [k; v]).
Proof.
  rewrite parse_line_dict.
  destruct (re_match pattern (strip line)) as [[|k' [|v' [|x g]]]|]; auto.
  destruct (Dict.get d k') eqn:E; auto.
  destruct (list_eq_dec N.eq_dec k' k) as [->|Hne].
  - rewrite get_set_eq. intros [= <- <-]; auto.
  - rewrite get_set_ne by assumption. auto.
Qed.

Lemma parse_line_absent report i line d out k :
  Dict.get (fst (parse_line report i line (d, out))) k = None ->
  Dict.get d k = None
  /\ forall v, re_match pattern (strip line) <> Some [k; v].
Proof.
  intros H. destruct (Dict.get d k) as [e|] eqn:E.
  - erewrite parse_line_keeps in H by eassumption. discriminate.
  - split; [reflexivity|]. intros v Hm.
    erewrite parse_line_new in H by eassumption. discriminate.
Qed.

Lemma parse_lines_origin_first report i ls d out k n v :
  Dict.get (fst (parse_lines report i ls (d, out))) k = Some (n, v) ->
  Dict.get d k = Some (n, v)
  \/ (Dict.get d k = None /\
      exists j line,
        n = i + j /\ nth_error ls j = Some line
        /\ re_match pattern (strip line) = Some [k; v]
        /\ first_for ls j k).
Proof.
  revert i d out. induction ls as [|l ls IH]; intros i d out H;
    cbn [parse_lines] in H; [auto|].
  destruct (parse_line report i l (d, out)) as [d1 out1] eqn:E.
  assert (E1 : d1 = fst (parse_line report i l (d, out)))
    by (rewrite E; reflexivity).
  apply IH in H as [H | (Hnone & j & line & -> & Hj & Hm & Hf)].
  - rewrite E1 in H.
    apply parse_line_origin_new in H as [H | (Hd & -> & Hm)]; [auto|].
    right. split; [assumption|]. exists 0, l.
    rewrite Nat.add_0_r.
    split; [reflexivity|]. split; [reflexivity|]. split; [exact Hm|].
    intros j' line' v' Hlt. lia.
  - rewrite E1 in Hnone. apply parse_line_absent in Hnone as [Hd Hl].
    right. split; [assumption|]. exists (S j), line.
    split; [lia|]. split; [exact Hj|]. split; [exact Hm|].
    intros [|j'] line' v' Hlt Hn; cbn [nth_error] in Hn.
    + injection Hn as <-. apply Hl.
    + apply (Hf j' line' v'); [lia | assumption].
Qed.

(** The dictionary does not depend on what is reported. *)
Lemma parse_lines_any_report r1 r2 i ls d o1 o2 :
  fst (parse_lines r1 i ls (d, o1)) = fst (parse_lines r2 i ls (d, o2)).
Proof.
  revert i d o1 o2. induction ls as [|l ls IH]; intros i d o1 o2;
    cbn [parse_lines]; [reflexivity|].
  destruct (parse_line r1 i l (d, o1)) as [d1 o1'] eqn:E1.
  destruct (parse_line r2 i l (d, o2)) as [d2 o2'] eqn:E2.
  assert (d1 = d2).
  { change d1 with (fst (d1, o1')). change d2 with (fst (d2, o2')).
    rewrite <- E1, <- E2, !parse_line_dict. reflexivity. }
  subst d2. apply IH.
Qed.

Lemma sorted_snoc (ns : list nat) (i : nat) :
  StronglySorted lt ns -> Forall (fun n => n < i) ns ->
  StronglySorted lt (ns ++ [i]).
Proof.
  induction ns as [|n ns IH]; intros Hs Hb; cbn [app].
  - repeat constructor.
  - inversion Hs; inversion Hb; subst. constructor; [auto|].
    apply Forall_app. split; [assumption|]. repeat constructor. assumption.
Qed.

(** Line numbers grow along the items and stay below the current index. *)
Lemma parse_line_sorted report i line d out :
  StronglySorted lt (line_numbers d) ->
  Forall (fun n => n < i) (line_numbers d) ->
  StronglySorted lt (line_numbers (fst (parse_line report i line (d, out))))
  /\ Forall (fun n => n < S i)
       (line_numbers (fst (parse_line report i line (d, out)))).
Proof.
  intros Hs Hb. rewrite parse_line_dict.
  assert (Hkeep : StronglySorted lt (line_numbers d)
                  /\ Forall (fun n => n < S i) (line_numbers d)).
  { split; [assumption|]. eapply Forall_impl; [|exact Hb].
    intros n Hn; simpl in Hn; lia. }
  destruct (re_match pattern (strip line)) as [[|k [|v [|x g]]]|]; auto.
  destruct (Dict.get d k) eqn:E; auto.
  rewrite set_new by assumption. unfold line_numbers, Dict.items.
  rewrite map_app. cbn [map fst snd]. split.
  - apply sorted_snoc; assumption.
  - apply Forall_app. split; [apply Hkeep|]. repeat constructor.
Qed.

Lemma parse_lines_sorted report i ls d out :
  StronglySorted lt (line_numbers d) ->
  Forall (fun n => n < i) (line_numbers d) ->
  StronglySorted lt
    (line_numbers (fst (parse_lines report i ls (d, out))))
  /\ Forall (fun n => n < i + length ls)
       (line_numbers (fst (parse_lines report i ls (d, out)))).
Proof.
  revert i d out. induction ls as [|l ls IH]; intros i d out Hs Hb;
    cbn [parse_lines length fst].
  - rewrite Nat.add_0_r. auto.
  - destruct (@parse_line_sorted report i l d out Hs Hb) as [Hs' Hb'].
    destruct (parse_line report i l (d, out)) as [d1 out1].
    replace (i + S (length ls)) with (S i + length ls) by lia.
    apply IH; assumption.
Qed.

Lemma parse_line_length report i line d out :
  length (fst (parse_line report i line (d, out))) <= S (length d).
Proof.
  rewrite parse_line_dict.
  destruct (re_match pattern (strip line)) as [[|k [|v [|x g]]]|]; auto.
  destruct (Dict.get d k) eqn:E; auto.
  rewrite set_new by assumption. rewrite length_app. simpl. lia.
Qed.

Lemma parse_lines_length report i ls d out :
  length (fst (parse_lines report i ls (d, out))) <= length d + length ls.
Proof.
  revert i d out. induction ls as [|l ls IH]; intros i d out;
    cbn [parse_lines length fst]; [lia|].
  pose proof (parse_line_length report i l d out) as H1.
  destruct (parse_line report i l (d, out)) as [d1 out1].
  specialize (IH (S i) d1 out1). cbn [fst] in H1. lia.
Qed.

(** With nothing to report, nothing is printed. *)
Lemma parse_lines_silent i ls d out :
  snd (parse_lines ParseReporting.silent i ls (d, out)) = out.
Proof.
  revert i d out. induction ls as [|l ls IH]; intros i d out;
    cbn [parse_lines]; [reflexivity|].
  destruct (parse_line ParseReporting.silent i l (d, out)) as [d1 out1] eqn:E.
  rewrite IH. unfold parse_line in E.
  destruct (re_match pattern (strip l)) as [[|k [|v [|x g]]]|];
    try (destruct (strip l); injection E as _ <-; reflexivity).
  destruct (Dict.get d k) as [[first e]|]; injection E as _ <-; reflexivity.
Qed.

(** The default level prints what the verbose level prints, less the
    notices of blank lines. *)
Lemma parse_lines_default_verbose i ls d out :
  snd (parse_lines ParseReporting.default i ls
         (d, filter (fun e => negb (is_empty_notice e)) out))
  = filter (fun e => negb (is_empty_notice e))
      (snd (parse_lines ParseReporting.verbose i ls (d, out))).
Proof.
  revert i d out. induction ls as [|l ls IH]; intros i d out;
    cbn [parse_lines]; [reflexivity|].
  pose proof (parse_line_dict ParseReporting.default i l d
                (filter (fun e => negb (is_empty_notice e)) out)) as D1.
  pose proof (parse_line_dict ParseReporting.verbose i l d out) as D2.
  destruct (parse_line ParseReporting.default i l _) as [d1 o1] eqn:E1.
  destruct (parse_line ParseReporting.verbose i l (d, out)) as [d2 o2] eqn:E2.
  cbn [fst] in D1, D2. rewrite <- D2 in D1. subst d2.
  assert (Ho : o1 = filter (fun e => negb (is_empty_notice e)) o2).
  { unfold parse_line in E1, E2.
    destruct (re_match pattern (strip l)) as [[|k [|v [|x g]]]|];
      try (destruct (strip l); injection E1 as _ <-; injection E2 as _ <-;
           cbn [ParseReporting.empty_line ParseReporting.mismatch_pattern
                ParseReporting.default ParseReporting.verbose];
           rewrite ?filter_app; cbn; rewrite ?app_nil_r; reflexivity).
    destruct (Dict.get d k) as [[first e]|];
      injection E1 as _ <-; injection E2 as _ <-;
      cbn [ParseReporting.duplicate_key ParseReporting.default
           ParseReporting.verbose];
      rewrite ?filter_app; reflexivity. }
  rewrite Ho. apply IH.
Qed.
End ParseMore.

(** X1. Every entry of the result comes from the file: the line of its
    line number matches [pattern] with the entry's key and value, the
    trimmed line begins with the declaration of that key and value, and no
    earlier line declares the key. *)
Theorem parse_entries_come_from_first_lines
  (fs : filesystem) (filepath : str) (report : ParseReporting.t)
  (text : str) (d : parsed) (k : str) (i : nat) (v : str) :
  read_text fs filepath = Some text ->
  fst (parse fs filepath report) = Ok d ->
  Dict.get d k = Some (i, v) ->
  exists line,
    nth_error (readlines text) i = Some line
    /\ re_match pattern (strip line) = Some [k; v]
    /\ (exists sp1 sp2 rest,
          strip line = declaration_text k sp1 sp2 v ++ rest)
    /\ first_for (readlines text) i k.
Proof.
  intros Hread Hparse Hget.
  rewrite (parse_ok report fs filepath Hread) in Hparse.
  injection Hparse as <-.
  apply parse_lines_origin_first in Hget
    as [Hget | (_ & j & line & -> & Hj & Hm & Hf)]; [discriminate|].
  exists line. cbn [Nat.add]. split; [exact Hj|]. split; [exact Hm|].
  split; [|exact Hf].
  apply pattern_sound in Hm
    as (k' & sp1 & sp2 & v' & rest & E & Hg & _).
  injection Hg as <- <-. eauto.
Qed.

(** X1 on the example base file: the entry of bye. *)
Lemma parse_entries_come_from_first_lines_witness :
  exists line,
    nth_error (readlines base_text) 1 = Some line
    /\ re_match pattern (strip line) = Some [lit "bye"; lit "Bye %@"]
    /\ (exists sp1 sp2 rest,
          strip line
          = declaration_text (lit "bye") sp1 sp2 (lit "Bye %@") ++ rest)
    /\ first_for (readlines base_text) 1 (lit "bye").
Proof.
  apply parse_entries_come_from_first_lines
    with (fs := example_fs) (filepath := base_path)
         (report := ParseReporting.default)
         (d := [(lit "hi", (0, lit "Hello")); (lit "bye", (1, lit "Bye %@"));
                (lit "a", (4, lit "b"))]);
    reflexivity.
Defined.

(** X2. The result of [parse] is a dictionary whose items follow the
    file: the keys are distinct, the line numbers grow strictly along the
    items, and each of them is the index of a line of the file. *)
Theorem parse_items_follow_the_file
  (fs : filesystem) (filepath : str) (report : ParseReporting.t)
  (text : str) (d : parsed) :
  read_text fs filepath = Some text ->
  fst (parse fs filepath report) = Ok d ->
  NoDup (Dict.keys d)
  /\ StronglySorted lt (line_numbers d)
  /\ Forall (fun n => n < length (readlines text)) (line_numbers d)
  /\ length (Dict.items d) <= length (readlines text).
Proof.
  intros Hread Hparse.
  rewrite (parse_ok report fs filepath Hread) in Hparse.
  injection Hparse as <-.
  split; [apply parse_lines_nodup; constructor|].
  assert (Hsorted :
            StronglySorted lt
              (line_numbers
                 (fst (parse_lines report 0 (readlines text)
                         ([], [ParsingFile filepath]))))
            /\ Forall (fun n => n < 0 + length (readlines text))
                 (line_numbers
                    (fst (parse_lines report 0 (readlines text)
                            ([], [ParsingFile filepath])))))
    by (apply parse_lines_sorted; constructor).
  destruct Hsorted as [Hs Hb].
  split; [exact Hs|]. split; [exact Hb|].
  apply (parse_lines_length report 0 (readlines text) [] _).
Qed.

(** X2 on the example base file. *)
Lemma parse_items_follow_the_file_witness :
  let d := [(lit "hi", (0, lit "Hello")); (lit "bye", (1, lit "Bye %@"));
            (lit "a", (4, lit "b"))] in
  NoDup (Dict.keys d)
  /\ StronglySorted lt (line_numbers d)
  /\ Forall (fun n => n < length (readlines base_text)) (line_numbers d)
  /\ length (Dict.items d) <= length (readlines base_text).
Proof.
  apply parse_items_follow_the_file
    with (fs := example_fs) (filepath := base_path)
         (report := ParseReporting.default);
    reflexivity.
Defined.

(** X3. What is reported has no effect on what is parsed: two reporting
    configurations give the same result, dictionary or error. *)
Theorem parse_result_ignores_reporting
  (fs : filesystem) (filepath : str) (r1 r2 : ParseReporting.t) :
  fst (parse fs filepath r1) = fst (parse fs filepath r2).
Proof.
  unfold parse. destruct (read_text fs filepath) as [text|]; [|reflexivity].
  pose proof (parse_lines_any_report r1 r2 0 (readlines text) []
                [ParsingFile filepath] [ParsingFile filepath]) as H.
  destruct (parse_lines r1 0 (readlines text) _) as [d1 o1].
  destruct (parse_lines r2 0 (readlines text) _) as [d2 o2].
  cbn [fst] in H |- *. rewrite H. reflexivity.
Qed.

(** X4. With the silent configuration [parse] prints its opening line
    and nothing else, whatever the file holds. *)
Theorem parse_silent_prints_opening_only
  (fs : filesystem) (filepath : str) :
  snd (parse fs filepath ParseReporting.silent) = [ParsingFile filepath].
Proof.
  unfold parse. destruct (read_text fs filepath) as [text|]; [|reflexivity].
  pose proof (parse_lines_silent 0 (readlines text) []
                [ParsingFile filepath]) as H.
  destruct (parse_lines ParseReporting.silent 0 (readlines text) _)
    as [d o]. exact H.
Qed.

(** X5. The default configuration prints exactly what the verbose one
    prints, in the same order, without the notices of blank lines. *)
Theorem parse_default_omits_blank_notices
  (fs : filesystem) (filepath : str) :
  snd (parse fs filepath ParseReporting.default)
  = filter (fun e => negb (is_empty_notice e))
      (snd (parse fs filepath ParseReporting.verbose)).
Proof.
  unfold parse. destruct (read_text fs filepath) as [text|]; [|reflexivity].
  pose proof (parse_lines_default_verbose 0 (readlines text) []
                [ParsingFile filepath]) as H.
  cbn [filter is_empty_notice negb] in H.
  destruct (parse_lines ParseReporting.default 0 (readlines text) _)
    as [d1 o1].
  destruct (parse_lines ParseReporting.verbose 0 (readlines text) _)
    as [d2 o2]. exact H.
Qed.

(** ** More about [shorten_string] and [get_missing_declarations] *)

Section MissingMore.

Lemma shorten_string_short s m :
  length s <= m -> shorten_string s m = s.
Proof.
  intros H. unfold shorten_string.
  destruct (m <? length s) eqn:E; [|reflexivity].
  apply Nat.ltb_lt in E. lia.
Qed.

Lemma shorten_string_long s m :
  3 <= m -> m < length s ->
  shorten_string s m = firstn (m - 3) s ++ lit "...".
Proof.
  intros Hm H. unfold shorten_string, prefix.
  apply Nat.ltb_lt in H. rewrite H.
  apply Nat.leb_le in Hm. rewrite Hm. reflexivity.
Qed.

Lemma shorten_string_length s m :
  3 <= m -> length (shorten_string s m) = Nat.min (length s) m.
Proof.
  intros Hm. destruct (le_lt_dec (length s) m) as [H | H].
  - rewrite shorten_string_short by assumption. lia.
  - rewrite shorten_string_long by assumption.
    rewrite length_app, length_firstn. cbn [length lit]. simpl. lia.
Qed.

Lemma filter_sorted (f : declaration -> bool) (l : list declaration) :
  StronglySorted lt (map (fun x : declaration => fst (snd x)) l) ->
  StronglySorted lt (map (fun x : declaration => fst (snd x)) (filter f l)).
Proof.
  induction l as [|x l IH]; cbn [map filter]; [auto|].
  intros H; inversion H as [|? ? Hs Hall]; subst.
  destruct (f x); cbn [map]; [|auto].
  constructor; [auto|].
  rewrite Forall_forall in Hall |- *. intros n Hn. apply Hall.
  apply in_map_iff in Hn as (y & <- & Hy).
  apply filter_In in Hy as [Hy _]. apply in_map_iff. exists y. auto.
Qed.

(** A key is in the result of the loop exactly when a line declares
    it. *)
Lemma parse_lines_declared report i ls d out k :
  declares ls k ->
  Dict.get (fst (parse_lines report i ls (d, out))) k <> None.
Proof.
  revert i d out. induction ls as [|l ls IH];
    intros i d out (j & line & v & Hj & Hm).
  - destruct j; discriminate.
  - cbn [parse_lines].
    destruct (parse_line report i l (d, out)) as [d1 o1] eqn:E.
    destruct j as [|j]; cbn [nth_error] in Hj.
    + injection Hj as ->.
      assert (H1 : Dict.get d1 k <> None).
      { change d1 with (fst (d1, o1)). rewrite <- E.
        destruct (Dict.get d k) as [e|] eqn:Hd.
        - erewrite parse_line_keeps by eassumption. discriminate.
        - erewrite parse_line_new by eassumption. discriminate. }
      destruct (Dict.get d1 k) as [e|] eqn:Hd1; [|congruence].
      erewrite parse_lines_keeps; [discriminate | exact Hd1].
    + apply IH. exists j, line, v. auto.
Qed.

Lemma parse_lines_undeclared report i ls out k :
  ~ declares ls k ->
  Dict.get (fst (parse_lines report i ls ([], out))) k = None.
Proof.
  intros Hno.
  destruct (Dict.get (fst (parse_lines report i ls ([], out))) k)
    as [[n v]|] eqn:E; [exfalso | reflexivity].
  apply parse_lines_origin in E as [E | (j & line & _ & Hj & Hm)];
    [discriminate|].
  apply Hno. exists j, line, v. auto.
Qed.
End MissingMore.

(** X6. [shorten_string] with a limit of at least three characters: a
    string within the limit is returned as it is; a longer one is cut to
    exactly the limit, keeps its first characters and ends with three
    dots.  So the result is never longer than the limit, and shortening
    again changes nothing. *)
Theorem shorten_string_fits (s : str) (max_length : nat) :
  3 <= max_length ->
  length (shorten_string s max_length) = Nat.min (length s) max_length
  /\ (length s <= max_length -> shorten_string s max_length = s)
  /\ (max_length < length s ->
      shorten_string s max_length
      = firstn (max_length - 3) s ++ lit "...")
  /\ shorten_string (shorten_string s max_length) max_length
     = shorten_string s max_length.
Proof.
  intros Hm.
  assert (Hlen : length (shorten_string s max_length)
                 = Nat.min (length s) max_length).
  { destruct (le_lt_dec (length s) max_length) as [H | H].
    - rewrite shorten_string_short by assumption. lia.
    - rewrite shorten_string_long by assumption.
      rewrite length_app, length_firstn. cbn [length lit]. simpl. lia. }
  split; [exact Hlen|]. split; [apply shorten_string_short|].
  split; [apply shorten_string_long, Hm|].
  apply shorten_string_short. rewrite Hlen. lia.
Qed.

(** X6 with the limit used for the tables. *)
Lemma shorten_string_fits_witness :
  let s := lit "The quick brown fox jumps over the lazy dog, then rests a while." in
  length (shorten_string s 60) = Nat.min (length s) 60
  /\ (length s <= 60 -> shorten_string s 60 = s)
  /\ (60 < length s -> shorten_string s 60 = firstn (60 - 3) s ++ lit "...")
  /\ shorten_string (shorten_string s 60) 60 = shorten_string s 60.
Proof.
  apply (@shorten_string_fits
           (lit "The quick brown fox jumps over the lazy dog, then rests a while.")
           60).
  lia.
Defined.

(** X7. The rows of the tables of [get_missing_declarations]: one row
    per declaration, in order, with the line number and the key as they
    are and a value of at most sixty characters. *)
Theorem table_rows (decls : list declaration) :
  map (fun r : nat * str * str => (snd (fst r), fst (fst r))) (table_of decls)
  = map (fun d : declaration => (fst d, fst (snd d))) decls
  /\ Forall (fun r : nat * str * str => length (snd r) <= 60)
       (table_of decls).
Proof.
  unfold table_of. split.
  - rewrite map_map. apply map_ext. intros [k [n v]]. reflexivity.
  - apply Forall_forall. intros r Hr.
    apply in_map_iff in Hr as ([k [n v]] & <- & _). cbn [snd].
    rewrite (@shorten_string_length v 60) by lia. lia.
Qed.

(** X8. The edges of the comparison: against an empty comparison every
    base item is missing, an empty base misses nothing, and a dictionary
    misses nothing against itself. *)
Theorem missing_edges
  (base_parse comparison_parse : parsed) (comparison_file : str)
  (report : MissingReporting.t) :
  fst (get_missing_declarations base_parse comparison_file [] report)
  = Dict.items base_parse
  /\ fst (get_missing_declarations [] comparison_file comparison_parse report)
     = []
  /\ fst (get_missing_declarations base_parse comparison_file base_parse
            report)
     = [].
Proof.
  rewrite !get_missing_declarations_value. split; [|split].
  - unfold Dict.items. induction base_parse as [|x l IH]; [reflexivity|].
    cbn [filter absent_from Dict.mem Dict.get negb]. rewrite IH. reflexivity.
  - reflexivity.
  - apply filter_none. intros [k e] Hin. unfold absent_from. cbn [fst].
    apply negb_false_iff, mem_true.
    change k with (fst (k, e)). apply in_map, Hin.
Qed.

(** X9. From files to the missing list.  With both files parsed, a
    declaration is reported missing exactly when it is the first
    declaration of its key in the base file and no line of the comparison
    file declares that key; the list is in the order of the base file's
    lines, and no key comes twice. *)
Theorem missing_of_parsed_files
  (fs : filesystem) (base_file comparison_file : str)
  (r1 r2 : ParseReporting.t) (report : MissingReporting.t)
  (base_text comparison_text : str) (base_parse comparison_parse : parsed) :
  read_text fs base_file = Some base_text ->
  read_text fs comparison_file = Some comparison_text ->
  fst (parse fs base_file r1) = Ok base_parse ->
  fst (parse fs comparison_file r2) = Ok comparison_parse ->
  let missing :=
    fst (get_missing_declarations base_parse comparison_file
           comparison_parse report) in
  (forall k i v,
     In (k, (i, v)) missing
     <-> (exists line,
            nth_error (readlines base_text) i = Some line
            /\ re_match pattern (strip line) = Some [k; v]
            /\ first_for (readlines base_text) i k)
         /\ ~ declares (readlines comparison_text) k)
  /\ StronglySorted lt (map (fun x : declaration => fst (snd x)) missing)
  /\ NoDup (map fst missing).
Proof.
  intros Hb Hc Hpb Hpc missing. subst missing.
  rewrite get_missing_declarations_value.
  rewrite (parse_ok r1 fs base_file Hb) in Hpb. injection Hpb as <-.
  rewrite (parse_ok r2 fs comparison_file Hc) in Hpc. injection Hpc as <-.
  set (b := fst (parse_lines r1 0 (readlines base_text) _)).
  set (c := fst (parse_lines r2 0 (readlines comparison_text) _)).
  assert (Hnd : NoDup (Dict.keys b))
    by (apply parse_lines_nodup; constructor).
  split; [|split].
  - intros k i v. rewrite filter_In. unfold absent_from. cbn [fst].
    rewrite negb_true_iff, mem_false. split.
    + intros [Hin Hnone]. apply (In_get _ _ _ Hnd) in Hin. split.
      * apply parse_lines_origin_first in Hin
          as [Hin | (_ & j & line & -> & Hj & Hm & Hf)]; [discriminate|].
        exists line. auto.
      * intros Hdecl.
        apply (parse_lines_declared r2 0 []
                 [ParsingFile comparison_file]) in Hdecl.
        exact (Hdecl Hnone).
    + intros [(line & Hi & Hm & Hf) Hno]. split.
      * apply get_In. unfold b. change i with (0 + i).
        eapply parse_lines_first; eauto.
      * apply parse_lines_undeclared, Hno.
  - apply filter_sorted.
    apply (@parse_lines_sorted r1 0 (readlines base_text) []
             [ParsingFile base_file]); constructor.
  - apply NoDup_keys_filter, Hnd.
Qed.

(** X9 on the example files. *)
Lemma missing_of_parsed_files_witness :
  let missing :=
    fst (get_missing_declarations
           [(lit "hi", (0, lit "Hello")); (lit "bye", (1, lit "Bye %@"));
            (lit "a", (4, lit "b"))]
           french_path [(lit "hi", (0, lit "Salut"))]
           MissingReporting.default) in
  (forall k i v,
     In (k, (i, v)) missing
     <-> (exists line,
            nth_error (readlines base_text) i = Some line
            /\ re_match pattern (strip line) = Some [k; v]
            /\ first_for (readlines base_text) i k)
         /\ ~ declares (readlines comparison_text) k)
  /\ StronglySorted lt (map (fun x : declaration => fst (snd x)) missing)
  /\ NoDup (map fst missing).
Proof.
  apply missing_of_parsed_files
    with (fs := example_fs) (base_file := base_path)
         (r1 := ParseReporting.default) (r2 := ParseReporting.default);
    reflexivity.
Defined.

(** ** More about [get_language] *)

Section LanguageMore.

Lemma shape_is_code primary region :
  forallb lower primary = true ->
  2 <= length primary <= 3 ->
  (region = []
   \/ exists r, region = hyphen :: r
                /\ forallb alpha r = true /\ length r = 2) ->
  is_language_code (primary ++ region) = true.
Proof.
  intros Hp Hlen Hr.
  destruct primary as [|a [|b [|c [|x p]]]]; cbn [length] in Hlen; try lia;
    cbn [forallb] in Hp; rewrite ?andb_true_iff in Hp.
  - destruct Hp as (Ha & Hb & _).
    destruct Hr as [-> | (r & -> & Hr & Hl)].
    + cbn. rewrite Ha, Hb. reflexivity.
    + destruct r as [|r1 [|r2 [|y r]]]; cbn [length] in Hl; try lia.
      cbn [forallb] in Hr. rewrite ?andb_true_iff in Hr.
      destruct Hr as (H1 & H2 & _).
      cbn [app is_language_code is_region].
      rewrite Ha, Hb, eqb_char_refl, H1, H2. reflexivity.
  - destruct Hp as (Ha & Hb & Hc & _).
    destruct Hr as [-> | (r & -> & Hr & Hl)].
    + cbn [app is_language_code is_region]. rewrite Ha, Hb, Hc.
      cbn. reflexivity.
    + destruct r as [|r1 [|r2 [|y r]]]; cbn [length] in Hl; try lia.
      cbn [forallb] in Hr. rewrite ?andb_true_iff in Hr.
      destruct Hr as (H1 & H2 & _).
      cbn [app is_language_code is_region].
      rewrite Ha, Hb, Hc, eqb_char_refl, H1, H2. cbn.
      rewrite ?orb_true_r. reflexivity.
Qed.

(** A match of [language_pattern] has read a language code and the
    suffix, and its group is the code. *)
Lemma language_sound_code s g :
  re_match language_pattern s = Some g ->
  exists code rest,
    s = code ++ lproj ++ rest /\ g = [code]
    /\ is_language_code code = true.
Proof.
  rewrite language_unfold. intros H.
  apply rep_sound in H as (a & s1 & -> & Ha & Hlen & H).
  destruct s1 as [|c s2].
  - apply run_lproj_sound in H as (rest & E & _). discriminate.
  - destruct (eqb_char hyphen c) eqn:Ec.
    + apply eqb_char_eq in Ec; subst c.
      destruct (rep alpha 2 2 s2 _) as [x|] eqn:Hr.
      * injection H as ->.
        apply rep_sound in Hr as (r & s3 & -> & Hr & Hrl & H).
        apply run_lproj_sound in H as (rest & -> & ->).
        exists (a ++ hyphen :: r), rest. split; [|split].
        -- rewrite <- app_assoc. reflexivity.
        -- replace (a ++ hyphen :: r ++ lproj ++ rest)
             with ((a ++ hyphen :: r) ++ lproj ++ rest)
             by (rewrite <- app_assoc; reflexivity).
           rewrite firstn_prefix. reflexivity.
        -- apply shape_is_code; auto. right. exists r.
           repeat split; auto. lia.
      * apply run_lproj_sound in H as (rest & E & _). discriminate.
    + apply run_lproj_sound in H as (rest & E & ->).
      exists a, rest. rewrite E, firstn_prefix.
      split; [reflexivity|]. split; [reflexivity|].
      rewrite <- (app_nil_r a). apply shape_is_code; auto.
Qed.

(** The search finds a match when one starts somewhere. *)
Lemma search_complete r u w g :
  re_match r w = Some g -> exists g', re_search r (u ++ w) = Some g'.
Proof.
  intros H. induction u as [|c u IH]; cbn [app].
  - destruct w; cbn [re_search]; rewrite H; eauto.
  - cbn [re_search]. destruct (re_match r (c :: u ++ w)); eauto.
Qed.
End LanguageMore.

(** X10. [get_language] returns a code exactly for the paths in which a
    language code (two or three letters a-z, optionally a hyphen and two
    letters) is followed by the suffix .lproj, and raises [ValueError] for
    all the others.  What it returns is such a code, taken from the path
    right before an occurrence of the suffix. *)
Theorem get_language_characterised (path : str) :
  (forall code,
     get_language path = Ok code ->
     is_language_code code = true
     /\ exists u w, path = u ++ code ++ lproj ++ w)
  /\ (has_locale path -> exists code, get_language path = Ok code)
  /\ (~ has_locale path -> get_language path = Raise (ValueError path)).
Proof.
  assert (Hsound : forall code,
             get_language path = Ok code ->
             is_language_code code = true
             /\ exists u w, path = u ++ code ++ lproj ++ w).
  { intros code. unfold get_language.
    destruct (re_search language_pattern path) as [g|] eqn:Hs;
      [|discriminate].
    apply search_sound in Hs as (u & w & -> & Hm).
    apply language_sound_code in Hm as (code' & rest & -> & -> & Hc).
    intros [= <-]. split; [exact Hc|]. eauto. }
  split; [exact Hsound|]. split.
  - intros (u & code & w & -> & Hc).
    pose proof (@language_match code w Hc) as Hm.
    destruct (search_complete language_pattern u _ Hm) as [g' Hs].
    unfold get_language. rewrite Hs.
    apply search_sound in Hs as (u' & w' & _ & Hm').
    apply language_sound_code in Hm' as (code' & rest & _ & -> & _).
    eauto.
  - intros Hno. unfold get_language.
    destruct (re_search language_pattern path) as [[|code g]|] eqn:Hs;
      try reflexivity.
    exfalso. apply Hno.
    assert (Hok : get_language path = Ok code)
      by (unfold get_language; rewrite Hs; reflexivity).
    apply Hsound in Hok as (Hc & u & w & ->). exists u, code, w. auto.
Qed.

(** X10 on the French path of the examples. *)
Lemma get_language_characterised_witness :
  is_language_code (lit "fr") = true
  /\ exists u w, french_path = u ++ lit "fr" ++ lproj ++ w.
Proof.
  apply (proj1 (get_language_characterised french_path) (lit "fr")).
  reflexivity.
Defined.

(** ** More about translation and [main] *)

Section TranslationMore.

Lemma zip_translations_ok missing_decls translations l :
  zip_translations missing_decls translations = Ok l ->
  map source_of l = firstn (length l) missing_decls
  /\ length l = Nat.min (length missing_decls) (length translations)
  /\ existsb is_plain (firstn (length missing_decls) translations) = false.
Proof.
  revert translations l.
  induction missing_decls as [|d ds IH]; intros [|t ts] l;
    cbn [zip_translations]; try (intros [= <-]; auto).
  destruct t as [s|text]; cbn [text_of bind]; [discriminate|].
  destruct (zip_translations ds ts) as [rest|e] eqn:E; cbn [bind];
    [|discriminate].
  intros [= <-]. destruct (IH _ _ E) as (Hm & Hl & Hp).
  cbn [map length firstn source_of fst snd existsb is_plain orb].
  rewrite Hm, Hl, Hp. destruct d; auto.
Qed.

Lemma zip_translations_raise missing_decls translations e :
  zip_translations missing_decls translations = Raise e ->
  e = AttributeError
  /\ existsb is_plain (firstn (length missing_decls) translations) = true.
Proof.
  revert translations.
  induction missing_decls as [|d ds IH]; intros [|t ts];
    cbn [zip_translations]; try discriminate.
  destruct t as [s|text]; cbn [text_of bind].
  - intros [= <-]. auto.
  - destruct (zip_translations ds ts) as [rest|e'] eqn:E; cbn [bind];
      [discriminate|].
    intros [= <-]. destruct (IH _ E) as [-> Hp].
    cbn [length firstn existsb is_plain orb]. auto.
Qed.

Lemma shipped_answer missing_decls dest src :
  get_translated_declarations Translator.a_batch_translate missing_decls
    dest src
  = (Ok [], [NotImplemented]).
Proof.
  unfold get_translated_declarations, Translator.a_batch_translate.
  rewrite zip_translations_nil. reflexivity.
Qed.

(** With the shipped class every list of the result is empty. *)
Lemma translate_missing_shipped base_file todo acc d out :
  translate_missing Translator.a_batch_translate base_file todo acc
  = (Ok d, out) ->
  Forall (fun x : str * list translated => snd x = []) acc ->
  Forall (fun x : str * list translated => snd x = []) d.
Proof.
  revert acc d out.
  induction todo as [|[file decls] todo IH]; intros acc d out;
    cbn [translate_missing].
  - intros [= <- _]. auto.
  - destruct decls as [|x decls].
    + destruct (translate_missing _ base_file todo acc) as [r o] eqn:E.
      intros [= -> _]. eauto.
    + destruct (get_language base_file) as [src|e]; [|discriminate].
      destruct (get_language file) as [dest|e]; [|discriminate].
      rewrite shipped_answer.
      destruct (translate_missing _ base_file todo _) as [r o] eqn:E.
      intros [= -> _] Hacc. eapply IH; [exact E|].
      clear E IH. induction acc as [|[k v] acc IHa]; cbn [Dict.set].
      * repeat constructor.
      * inversion Hacc; subst.
        destruct (Str.eqb k file); constructor; auto.
Qed.
End TranslationMore.

(** X11. Whatever the dependency answers, a list returned by
    [get_translated_declarations] holds the first missing declarations, in
    order and unchanged, each with one translation: as many as the shorter
    of the request and the answer, never more than were asked for. *)
Theorem translations_keep_declarations
  (translator : batch_translate) (missing_decls : list declaration)
  (dest src : str) (l : list translated) :
  fst (get_translated_declarations translator missing_decls dest src) = Ok l ->
  map source_of l = firstn (length l) missing_decls
  /\ length l
     = Nat.min (length missing_decls)
         (length (fst (translator (texts_of missing_decls) src dest)))
  /\ length l <= length missing_decls.
Proof.
  unfold get_translated_declarations. fold (texts_of missing_decls).
  destruct (translator (texts_of missing_decls) src dest) as [ts out].
  cbn [fst]. intros H. apply zip_translations_ok in H as (Hm & Hl & _).
  split; [exact Hm|]. split; [exact Hl|]. lia.
Qed.

(** X11 with two declarations and an answer of one object. *)
Lemma translations_keep_declarations_witness :
  let l := [(lit "bye", (1, lit "Bye"), lit "Au revoir")] in
  map source_of l = firstn (length l) example_missing
  /\ length l
     = Nat.min (length example_missing)
         (length (fst (short_stub (texts_of example_missing)
                         (lit "en") (lit "fr"))))
  /\ length l <= length example_missing.
Proof.
  apply translations_keep_declarations with (dest := lit "fr").
  reflexivity.
Defined.

(** X12. [get_translated_declarations] raises in one case only: a plain
    [str] among the answers that get paired with a declaration.  The
    exception is then [AttributeError]; answers beyond the number of
    declarations are never looked at. *)
Theorem translation_raises_on_plain_answers
  (translator : batch_translate) (missing_decls : list declaration)
  (dest src : str) (e : exn) :
  fst (get_translated_declarations translator missing_decls dest src)
  = Raise e
  <-> e = AttributeError
      /\ existsb is_plain
           (firstn (length missing_decls)
              (fst (translator (texts_of missing_decls) src dest)))
         = true.
Proof.
  unfold get_translated_declarations. fold (texts_of missing_decls).
  destruct (translator (texts_of missing_decls) src dest) as [ts out].
  cbn [fst]. split.
  - apply zip_translations_raise.
  - intros [-> Hp].
    destruct (zip_translations missing_decls ts) as [l|e'] eqn:E.
    + apply zip_translations_ok in E as (_ & _ & Hn). congruence.
    + apply zip_translations_raise in E as [-> _]. reflexivity.
Qed.

(** X13. Comparison files that miss nothing are passed over: the
    translation loop returns the dictionary it was given, prints one line
    per file, and resolves no language, so a path without a locale
    directory does no harm here. *)
Theorem nothing_missing_nothing_translated
  (translator : batch_translate) (base_file : str)
  (todo : list (str * list declaration))
  (acc : Dict.dict (list translated)) :
  Forall (fun x : str * list declaration => snd x = []) todo ->
  translate_missing translator base_file todo acc
  = (Ok acc,
     map (fun x : str * list declaration => NothingToTranslate (fst x)) todo).
Proof.
  induction todo as [|[file decls] todo IH]; intros H;
    cbn [translate_missing map]; [reflexivity|].
  inversion H as [|? ? Hd Ht]; subst. cbn [snd] in Hd. subst decls.
  rewrite (IH Ht). reflexivity.
Qed.

(** X13 with a base file and a comparison file without locale
    directory. *)
Lemma nothing_missing_nothing_translated_witness :
  translate_missing (object_stub (fun t => t)) stray_path
    [(stray_path, []); (french_path, [])] []
  = (Ok [], [NothingToTranslate stray_path; NothingToTranslate french_path]).
Proof.
  apply (@nothing_missing_nothing_translated (object_stub (fun t => t))
           stray_path [(stray_path, []); (french_path, [])] []).
  repeat constructor.
Defined.

(** X14. With the class shipped in [translate.py], a translation loop
    that ends normally has stored an empty list for every file it
    translated, and the closing loop of [main] prints no table. *)
Theorem shipped_translator_prints_no_table
  (base_file : str) (todo : list (str * list declaration))
  (d : Dict.dict (list translated)) (out : list event) (flag : bool) :
  translate_missing Translator.a_batch_translate base_file todo []
  = (Ok d, out) ->
  Forall (fun x : str * list translated => snd x = []) d
  /\ print_translated flag (Dict.items d) = [].
Proof.
  intros H. apply translate_missing_shipped in H; [|constructor].
  split; [exact H|]. unfold Dict.items.
  induction d as [|[file l] d IH]; [reflexivity|].
  inversion H as [|? ? Hl Hd]; subst. cbn [snd] in Hl. subst l.
  unfold print_translated in IH |- *. cbn [flat_map app]. auto.
Qed.

(** X14 on the French file of the examples. *)
Lemma shipped_translator_prints_no_table_witness :
  Forall (fun x : str * list translated => snd x = []) [(french_path, [])]
  /\ print_translated true (Dict.items [(french_path, [])]) = [].
Proof.
  apply shipped_translator_prints_no_table
    with (base_file := base_path) (todo := [(french_path, example_missing)])
         (out := [Translating french_path;
                  Destination french_path (lit "fr"); NotImplemented]).
  reflexivity.
Defined.

(** ** The table printer *)

Section TableFacts.
Import PrettyTable.

Lemma heads_tails_In rows hs ts row :
  heads_tails rows = Some (hs, ts) -> In row rows ->
  exists x r, row = x :: r /\ In x hs /\ In r ts.
Proof.
  revert hs ts. induction rows as [|[|y q] rows IH]; intros hs ts H Hin;
    cbn [heads_tails] in H; [destruct Hin | discriminate |].
  destruct (heads_tails rows) as [[hs' ts']|] eqn:E; [|discriminate].
  injection H as <- <-. destruct Hin as [<- | Hin].
  - exists y, q. cbn [In]. auto.
  - destruct (IH hs' ts' eq_refl Hin) as (x & r & -> & Hx & Hr).
    exists x, r. cbn [In]. auto.
Qed.

Lemma list_max_In (l : list nat) (n : nat) : In n l -> n <= list_max l.
Proof.
  intros H. pose proof (proj1 (list_max_le l (list_max l)) (le_n _)) as Hall.
  rewrite Forall_forall in Hall. auto.
Qed.

(** Every row fits the widths computed from the rows. *)
Lemma covered_by_widths n rows row :
  In row rows ->
  covered row
    (map (fun col => list_max (map (fun x => length (str_of x)) col))
       (zip_rows n rows)).
Proof.
  revert rows row. induction n as [|n IH]; intros rows row Hin;
    cbn [zip_rows map covered]; [exact I|].
  destruct (heads_tails rows) as [[hs ts]|] eqn:E; cbn [map covered];
    [|exact I].
  destruct (@heads_tails_In rows hs ts row E Hin) as (x & r & -> & Hx & Hr).
  split; [|apply IH, Hr].
  apply list_max_In, in_map_iff. exists x. auto.
Qed.

Lemma length_ljust s w : length s <= w -> length (ljust s w) = w.
Proof.
  intros H. unfold ljust. rewrite length_app, repeat_length. lia.
Qed.

Lemma join_more sep p q ps :
  join sep (p :: q :: ps) = p ++ sep ++ join sep (q :: ps).
Proof. reflexivity. Qed.

Lemma line_width_more w w2 ws :
  line_width (w :: w2 :: ws) = w + 3 + line_width (w2 :: ws).
Proof. reflexivity. Qed.

(** A row that fits the widths gives a line of the table's width. *)
Lemma pretty_row_length row widths :
  covered row widths -> length (pretty_row row widths) = line_width widths.
Proof.
  unfold pretty_row. revert row.
  induction widths as [|w ws IH]; intros row H.
  - destruct row; reflexivity.
  - destruct row as [|x r]; cbn [covered] in H; [contradiction|].
    destruct H as [Hx Hr]. destruct ws as [|w2 ws].
    + destruct r; cbn [combine map join line_width fst snd];
        apply length_ljust, Hx.
    + destruct r as [|x2 r]; cbn [covered] in Hr; [contradiction|].
      specialize (IH (x2 :: r) Hr).
      cbn [combine map fst snd] in IH |- *.
      rewrite join_more, line_width_more, !length_app, IH.
      rewrite length_ljust by assumption.
      change (length (lit " | ")) with 3. lia.
Qed.
End TableFacts.

(** X18. A table built with headers is rendered without error, line by
    line: the header line, a line of hyphens, one line per data row.  All
    these lines have the same length, the one given by the column widths,
    whatever the rows hold and even when they differ in length. *)
Theorem table_lines_are_aligned
  (d : list (list PrettyTable.item)) (h : PrettyTable.item)
  (hs : list PrettyTable.item) :
  let widths := PrettyTable.col_widths ((h :: hs) :: d) in
  let lines :=
    PrettyTable.pretty_row (h :: hs) widths
    :: repeat hyphen (line_width widths)
    :: map (fun row => PrettyTable.pretty_row row widths) d in
  fst (PrettyTable.to_str (PrettyTable.init d (Some (h :: hs))))
  = Ok (unlines lines)
  /\ Forall (fun l => length l = line_width widths) lines.
Proof.
  intros widths lines.
  assert (Hcov : forall row, In row ((h :: hs) :: d) -> covered row widths).
  { intros row Hin. apply covered_by_widths, Hin. }
  assert (Htop : length (PrettyTable.pretty_row (h :: hs) widths)
                 = line_width widths).
  { apply pretty_row_length, Hcov. left. reflexivity. }
  split.
  - cbn [PrettyTable.init PrettyTable.to_str PrettyTable.data
         PrettyTable.headers fst].
    fold widths. unfold lines, unlines. cbn [map concat].
    rewrite Htop, map_map, <- !app_assoc. reflexivity.
  - unfold lines. constructor; [exact Htop|].
    constructor; [apply repeat_length|].
    apply Forall_forall. intros l Hl.
    apply in_map_iff in Hl as (row & <- & Hrow).
    apply pretty_row_length, Hcov. right. exact Hrow.
Qed.

(** X19. Rendering changes the object.  The constructor puts the headers
    in front of the caller's list and the first rendering takes them out
    again, so the list is back to what the caller passed; a second
    rendering then takes the first data row for the headers, and with no
    data row left it answers that there is no data. *)
Theorem table_rendering_consumes_rows
  (d : list (list PrettyTable.item)) (h : PrettyTable.item)
  (hs : list PrettyTable.item) :
  let once := snd (PrettyTable.to_str (PrettyTable.init d (Some (h :: hs)))) in
  PrettyTable.data once = d
  /\ (forall x r d',
        d = (x :: r) :: d' ->
        PrettyTable.to_str once
        = PrettyTable.to_str (PrettyTable.init d' (Some (x :: r))))
  /\ (d = [] ->
      PrettyTable.to_str once = (Ok (lit "No data provided."), once)).
Proof.
  cbn [PrettyTable.init PrettyTable.to_str PrettyTable.data
       PrettyTable.headers snd].
  split; [reflexivity|]. split.
  - intros x r d' ->. reflexivity.
  - intros ->. reflexivity.
Qed.

(** X20. A table built without headers (none, or an empty list) can be
    rendered only when it has no data: with data, the attribute [headers]
    was never set and reading it raises [AttributeError]. *)
Theorem table_without_headers
  (d : list (list PrettyTable.item)) (headers : option (list PrettyTable.item)) :
  headers = None \/ headers = Some [] ->
  fst (PrettyTable.to_str (PrettyTable.init d headers))
  = match d with
    | [] => Ok (lit "No data provided.")
    | _ :: _ => Raise AttributeError
    end.
Proof.
  intros [-> | ->]; destruct d; reflexivity.
Qed.

(** X20 on one row of data. *)
Lemma table_without_headers_witness :
  fst (PrettyTable.to_str
         (PrettyTable.init [[PrettyTable.IInt 1; PrettyTable.IStr (lit "bye")]]
            None))
  = Raise AttributeError.
Proof.
  apply (@table_without_headers
           [[PrettyTable.IInt 1; PrettyTable.IStr (lit "bye")]] None).
  left. reflexivity.
Defined.

(** The table of two missing declarations, as [main] prints it. *)
Example table_of_example :
  fst (PrettyTable.to_str
         (PrettyTable.init
            (map table_cells
               (table_of [(lit "bye", (1, lit "Bye")); (lit "ok", (12, lit "OK"))]))
            (Some table_header)))
  = Ok (unlines
          [lit "Line | Key | Value";
           lit "------------------";
           lit "1    | bye | Bye  ";
           lit "12   | ok  | OK   "]).
Proof. reflexivity. Qed.

(** ** The translation loop when every language resolves *)

Section LoopFacts.
Variable f : str -> str -> str -> str.

Lemma language_stub_aligned missing_decls dest src :
  get_translated_declarations (language_stub f) missing_decls dest src
  = (Ok (translated_with (f src dest) missing_decls), []).
Proof.
  unfold get_translated_declarations, language_stub, translated_with.
  f_equal.
  induction missing_decls as [|d ds IH]; [reflexivity|].
  cbn [map zip_translations text_of bind]. rewrite IH. reflexivity.
Qed.

Lemma translate_missing_resolved base_file src todo acc :
  get_language base_file = Ok src ->
  NoDup (map fst todo) ->
  (forall file decls,
     In (file, decls) todo -> decls <> [] ->
     exists dest, get_language file = Ok dest) ->
  exists d,
    fst (translate_missing (language_stub f) base_file todo acc) = Ok d
    /\ (forall k, ~ In k (map fst todo) -> Dict.get d k = Dict.get acc k)
    /\ (forall file decls,
          In (file, decls) todo -> decls <> [] ->
          exists dest,
            get_language file = Ok dest
            /\ Dict.get d file
               = Some (translated_with (f src dest) decls))
    /\ (forall file,
          In (file, []) todo -> Dict.get d file = Dict.get acc file).
Proof.
  intros Hsrc. revert acc.
  induction todo as [|[file decls] todo IH]; intros acc Hnd Hres.
  - exists acc. cbn. repeat split; auto; intros ? ? [].
  - cbn [map fst] in Hnd. inversion Hnd as [|? ? Hnot Hnd']; subst.
    assert (Hres' : forall file decls,
               In (file, decls) todo -> decls <> [] ->
               exists dest, get_language file = Ok dest)
      by (intros; eapply Hres; [right|]; eassumption).
    cbn [translate_missing]. destruct decls as [|x decls].
    + destruct (IH acc Hnd' Hres') as (d & Hd & Hother & Hfull & Hempty).
      destruct (translate_missing _ base_file todo acc) as [r o].
      cbn [fst] in Hd |- *. exists d. split; [exact Hd|].
      split; [|split].
      * intros k Hk. apply Hother. intros Hin. apply Hk. right. exact Hin.
      * intros file' decls' [E | Hin] Hne; [congruence|]. eauto.
      * intros file' [E | Hin]; [|auto].
        injection E as <-. apply Hother, Hnot.
    + destruct (Hres file (x :: decls)) as [dest Hdest];
        [left; reflexivity | discriminate |].
      rewrite Hsrc, Hdest, language_stub_aligned.
      set (acc' := Dict.set acc file _).
      destruct (IH acc' Hnd' Hres') as (d & Hd & Hother & Hfull & Hempty).
      destruct (translate_missing _ base_file todo acc') as [r o].
      cbn [fst] in Hd |- *. exists d. split; [exact Hd|].
      assert (Hne : forall k, In k (map fst todo) -> file <> k)
        by (intros k Hk ->; exact (Hnot Hk)).
      split; [|split].
      * intros k Hk. rewrite Hother by (intros Hin; apply Hk; right; exact Hin).
        unfold acc'. apply get_set_ne. intros ->. apply Hk. left. reflexivity.
      * intros file' decls' [E | Hin] Hne'.
        -- injection E as <- <-. exists dest. split; [exact Hdest|].
           rewrite Hother by exact Hnot. unfold acc'. apply get_set_eq.
        -- eauto.
      * intros file' [E | Hin]; [discriminate|].
        rewrite Hempty by exact Hin. unfold acc'. apply get_set_ne.
        apply Hne. change file' with (fst (file', @nil declaration)).
        apply in_map, Hin.
Qed.
End LoopFacts.

(** X21. The translation loop when every language resolves and the
    dependency answers with one object per text: it ends normally, and
    every comparison file with missing declarations gets its own list,
    each declaration in order with the translation of its value from the
    language of the base file into the language of that file; a file that
    misses nothing gets no list. *)
Theorem translation_uses_the_languages_of_the_files
  (f : str -> str -> str -> str) (base_file src : str)
  (todo : list (str * list declaration)) :
  get_language base_file = Ok src ->
  NoDup (map fst todo) ->
  (forall file decls,
     In (file, decls) todo -> decls <> [] ->
     exists dest, get_language file = Ok dest) ->
  exists d,
    fst (translate_missing (language_stub f) base_file todo []) = Ok d
    /\ (forall file decls,
          In (file, decls) todo -> decls <> [] ->
          exists dest,
            get_language file = Ok dest
            /\ Dict.get d file
               = Some (translated_with (f src dest) decls))
    /\ (forall file, In (file, []) todo -> Dict.get d file = None)
    /\ (forall k, ~ In k (map fst todo) -> Dict.get d k = None).
Proof.
  intros Hsrc Hnd Hres.
  destruct (@translate_missing_resolved f base_file src todo [] Hsrc Hnd Hres)
    as (d & Hd & Hother & Hfull & Hempty).
  exists d. split; [exact Hd|]. split; [exact Hfull|]. split.
  - intros file Hin. rewrite (Hempty file Hin). reflexivity.
  - intros k Hk. rewrite (Hother k Hk). reflexivity.
Qed.

(** X21 with a French file that misses two declarations and a file
    that misses nothing. *)
Lemma translation_uses_the_languages_of_the_files_witness :
  exists d,
    fst (translate_missing
           (language_stub (fun src dest t => src ++ dest ++ t)) base_path
           [(french_path, example_missing); (stray_path, [])] [])
    = Ok d
    /\ (forall file decls,
          In (file, decls) [(french_path, example_missing); (stray_path, [])] ->
          decls <> [] ->
          exists dest,
            get_language file = Ok dest
            /\ Dict.get d file
               = Some (translated_with
                         (fun t => lit "en" ++ dest ++ t) decls))
    /\ (forall file,
          In (file, []) [(french_path, example_missing); (stray_path, [])] ->
          Dict.get d file = None)
    /\ (forall k,
          ~ In k (map fst [(french_path, example_missing); (stray_path, [])]) ->
          Dict.get d k = None).
Proof.
  apply (@translation_uses_the_languages_of_the_files
           (fun src dest t => src ++ dest ++ t) base_path (lit "en")
           [(french_path, example_missing); (stray_path, [])]).
  - reflexivity.
  - repeat constructor; cbn; intuition discriminate.
  - intros file decls [E | [E | []]] Hne; injection E as <- <-.
    + exists (lit "fr"). reflexivity.
    + congruence.
Defined.

(** ** The claims about [get_language], continued *)

(** C9, as stated, fails: no segment of this path ends with .lproj, and
    still a language is returned; the same with a file name that only
    contains the suffix. *)
Lemma get_language_without_lproj_segment :
  has_lproj_segment (lit "ab.lprojx/Localizable.strings") = false
  /\ get_language (lit "ab.lprojx/Localizable.strings") = Ok (lit "ab")
  /\ has_lproj_segment (lit "docs/notes.lproj.txt") = false
  /\ get_language (lit "docs/notes.lproj.txt") = Ok (lit "tes").
Proof. repeat split. Qed.

Section LanguageExact.

Lemma get_language_raises_iff path :
  get_language path = Raise (ValueError path) <-> ~ has_locale path.
Proof.
  unfold get_language. split.
  - intros H (u & code & w & -> & Hc).
    pose proof (@language_match code w Hc) as Hm.
    destruct (search_complete language_pattern u _ Hm) as [g' Hs].
    rewrite Hs in H.
    apply search_sound in Hs as (u' & w' & _ & Hm').
    apply language_sound_code in Hm' as (code' & rest & _ & -> & _).
    discriminate H.
  - intros Hno.
    destruct (re_search language_pattern path) as [[|code g]|] eqn:Hs;
      try reflexivity.
    exfalso. apply Hno.
    apply search_sound in Hs as (u & w & -> & Hm).
    apply language_sound_code in Hm as (code' & rest & -> & Hg & Hc).
    exists u, code', rest. auto.
Qed.
End LanguageExact.

(** C9, amended.  A path with the segment fr.lproj resolves to fr, one
    with the segment zh-CN.lproj to zh-CN, and in general a segment made
    of a language code (two or three letters a-z, optionally a hyphen and
    two letters) and the suffix .lproj resolves to that code, the search
    running from the left: no suffix .lproj occurs before the segment.
    [get_language] raises [ValueError], the program's UnresolvedLanguage,
    exactly for the paths in which no language code is followed at once by
    the text .lproj, wherever the segments begin and end. *)
Theorem get_language_resolves :
  (forall p rest,
     segment_start p -> contains lproj p = false ->
     get_language (p ++ lit "fr.lproj" ++ rest) = Ok (lit "fr"))
  /\ (forall p rest,
        segment_start p -> contains lproj p = false ->
        get_language (p ++ lit "zh-CN.lproj" ++ rest) = Ok (lit "zh-CN"))
  /\ (forall p code rest,
        is_language_code code = true ->
        segment_start p -> contains lproj p = false ->
        get_language (p ++ code ++ lproj ++ rest) = Ok code)
  /\ (forall path,
        get_language path = Raise (ValueError path) <-> ~ has_locale path)
  /\ (forall path,
        contains lproj path = false ->
        get_language path = Raise (ValueError path)).
Proof.
  split; [|split; [|split; [|split]]].
  - intros p rest Hp Hno.
    change (lit "fr.lproj" ++ rest) with (lit "fr" ++ lproj ++ rest).
    apply get_language_segment; auto.
  - intros p rest Hp Hno.
    change (lit "zh-CN.lproj" ++ rest) with (lit "zh-CN" ++ lproj ++ rest).
    apply get_language_segment; auto.
  - intros p code rest. apply get_language_segment.
  - apply get_language_raises_iff.
  - apply get_language_unresolved.
Qed.

(** C9 amended, on the paths of the specification's examples. *)
Lemma get_language_resolves_witness :
  get_language (lit "app/fr.lproj/Localizable.strings") = Ok (lit "fr")
  /\ get_language (lit "app/zh-CN.lproj/Localizable.strings")
     = Ok (lit "zh-CN")
  /\ get_language (lit "app/other/Localizable.strings")
     = Raise (ValueError (lit "app/other/Localizable.strings")).
Proof.
  destruct get_language_resolves as (Hfr & Hzh & _ & _ & Hnone).
  split; [|split].
  - apply (Hfr (lit "app/") (lit "/Localizable.strings")).
    + right. exists (lit "app"). reflexivity.
    + reflexivity.
  - apply (Hzh (lit "app/") (lit "/Localizable.strings")).
    + right. exists (lit "app"). reflexivity.
    + reflexivity.
  - apply Hnone. reflexivity.
Defined.

(** ** The claims about translation, continued *)

Section Alignment.

End Alignment.





(** ** More about [main] *)

Section MainMore.

Lemma parse_unreadable fs filepath report :
  read_text fs filepath = None ->
  parse fs filepath report
  = (Raise (read_error fs filepath), [ParsingFile filepath]).
Proof. intros H. unfold parse. rewrite H. reflexivity. Qed.

Lemma parse_readable fs filepath report text :
  read_text fs filepath = Some text ->
  exists d out, parse fs filepath report = (Ok d, out).
Proof.
  intros H. unfold parse. rewrite H.
  destruct (parse_lines report 0 (readlines text) _) as [d out]. eauto.
Qed.

Lemma parse_lines_output report i ls d out :
  forallb is_parse_output out = true ->
  forallb is_parse_output (snd (parse_lines report i ls (d, out))) = true.
Proof.
  revert i d out. induction ls as [|l ls IH]; intros i d out H;
    cbn [parse_lines]; [exact H|].
  destruct (parse_line report i l (d, out)) as [d1 o1] eqn:E.
  apply IH. unfold parse_line in E.
  destruct (re_match pattern (strip l)) as [[|k [|v [|x g]]]|];
    try (destruct (strip l);
         [destruct (ParseReporting.empty_line report)
         |destruct (ParseReporting.mismatch_pattern report)];
         injection E as _ <-; rewrite ?forallb_app, ?H; reflexivity).
  destruct (Dict.get d k) as [[first e]|];
    [destruct (ParseReporting.duplicate_key report)|];
    injection E as _ <-; rewrite ?forallb_app, ?H; reflexivity.
Qed.

(** [parse] prints parsing notices only. *)
Lemma parse_output fs filepath report :
  forallb is_parse_output (snd (parse fs filepath report)) = true.
Proof.
  unfold parse. destruct (read_text fs filepath) as [text|]; [|reflexivity].
  pose proof (@parse_lines_output report 0 (readlines text) []
                [ParsingFile filepath] eq_refl) as H.
  destruct (parse_lines report 0 (readlines text) _) as [d o]. exact H.
Qed.

Lemma parse_comparisons_output fs report files acc :
  forallb is_parse_output (snd (parse_comparisons fs report files acc))
  = true.
Proof.
  revert acc. induction files as [|p files IH]; intros acc;
    cbn [parse_comparisons]; [reflexivity|].
  pose proof (@parse_output fs p report) as Hp.
  destruct (parse fs p report) as [[d|e] out]; cbn [snd] in Hp |- *;
    [|exact Hp].
  specialize (IH (Dict.set acc p d)).
  destruct (parse_comparisons fs report files _) as [r o].
  cbn [snd] in IH |- *. rewrite forallb_app, Hp, IH. reflexivity.
Qed.

(** The first file that gives no text ends the loop. *)
Lemma parse_comparisons_unreadable fs report pre f post acc :
  Forall (fun p => read_text fs p <> None) pre ->
  read_text fs f = None ->
  fst (parse_comparisons fs report (pre ++ f :: post) acc)
  = Raise (read_error fs f).
Proof.
  revert acc. induction pre as [|p pre IH]; intros acc Hpre Hf;
    cbn [app parse_comparisons].
  - rewrite (@parse_unreadable fs f report Hf). reflexivity.
  - inversion Hpre as [|? ? Hp Hrest]; subst.
    destruct (read_text fs p) as [text|] eqn:E; [|congruence].
    destruct (@parse_readable fs p report _ E) as (d & out & ->).
    specialize (IH (Dict.set acc p d) Hrest Hf).
    destruct (parse_comparisons fs report (pre ++ f :: post) _) as [r o].
    exact IH.
Qed.

(** [main] when the parsing of the comparison files raises. *)
Lemma main_files_given fs translator args base_parse out0 e out1 :
  files_given fs args ->
  parse fs (base args) (ParseReporting.get_report (parse_level args))
  = (Ok base_parse, out0) ->
  comparison_files args <> [] ->
  parse_comparisons fs (ParseReporting.get_report (parse_level args))
    (comparison_files args) []
  = (Raise e, out1) ->
  main fs translator args
  = (Raise e,
     (ParsingBase (base args) :: out0)
     ++ [ParsingComparison (comparison_files args)] ++ out1).
Proof.
  intros Hgiven Hbase Hne Hcmp.
  unfold main. rewrite Hbase. unfold files_given in Hgiven.
  destruct (comparison_files args) as [|first [|second others]] eqn:Ef;
    [congruence| |].
  - rewrite Hgiven, Hcmp. rewrite <- app_assoc. reflexivity.
  - rewrite Hcmp. rewrite <- app_assoc. reflexivity.
Qed.
(** [filter] keeps the order of the list. *)
Lemma filter_keeps_order (A : Type) (f : A -> bool) (l : list A) i j p q :
  i < j ->
  nth_error (filter f l) i = Some p -> nth_error (filter f l) j = Some q ->
  exists i' j',
    i' < j' /\ nth_error l i' = Some p /\ nth_error l j' = Some q.
Proof.
  revert i j. induction l as [|a l IH]; intros i j Hlt Hi Hj.
  - destruct i; discriminate.
  - cbn [filter] in Hi, Hj. destruct (f a).
    + destruct j as [|j]; [lia|]. cbn [nth_error] in Hj.
      destruct i as [|i]; cbn [nth_error] in Hi.
      * injection Hi as <-.
        apply nth_error_In, filter_In in Hj as [Hj _].
        apply In_nth_error in Hj as [j' Hj'].
        exists 0, (S j'). repeat split; [lia|exact Hj'].
      * destruct (IH i j) as (i' & j' & H & Hi' & Hj'); [lia|assumption..|].
        exists (S i'), (S j'). repeat split; [lia|assumption..].
    + destruct (IH i j) as (i' & j' & H & Hi' & Hj'); [assumption..|].
      exists (S i'), (S j'). repeat split; [lia|assumption..].
Qed.
End MainMore.

(** X15. The early ends of [main].  When the base file gives no text,
    [main] raises after its two opening lines and looks at nothing else:
    [OSError] when the file cannot be opened or read, [UnicodeDecodeError]
    when it is not valid UTF-8.  When the base file is parsed and no
    comparison file is given, [main] prints the notice and leaves with
    [SystemExit] and status 0. *)
Theorem main_early_ends
  (fs : filesystem) (translator : batch_translate) (args : arguments) :
  (read_text fs (base args) = None ->
   main fs translator args
   = (Raise (if undecodable fs (base args)
             then UnicodeDecodeError (base args)
             else OSError (base args)),
      [ParsingBase (base args); ParsingFile (base args)]))
  /\ (read_text fs (base args) <> None ->
      comparison_files args = [] ->
      fst (main fs translator args) = Raise (SystemExit 0)
      /\ In NoComparisonFiles (snd (main fs translator args))).
Proof.
  split.
  - intros H. unfold main. rewrite (@parse_unreadable fs _ _ H). reflexivity.
  - intros H Hnone.
    destruct (read_text fs (base args)) as [text|] eqn:E; [|congruence].
    destruct (@parse_readable fs (base args)
                (ParseReporting.get_report (parse_level args)) _ E)
      as (d & out & Hp).
    unfold main. rewrite Hp, Hnone. cbn [fst snd]. split; [reflexivity|].
    right. apply in_or_app. right. left. reflexivity.
Qed.

(** X15 in the project directory of the examples: a base file that is
    not valid UTF-8, and a run without comparison files. *)
Lemma main_early_ends_witness :
  main tree_fs Translator.a_batch_translate
    {| base := lit "app/legacy.strings"; comparison_files := [french_path];
       parse_level := ParseReporting.SILENT;
       missing_level := MissingReporting.SILENT; translate := true |}
  = (Raise (UnicodeDecodeError (lit "app/legacy.strings")),
     [ParsingBase (lit "app/legacy.strings");
      ParsingFile (lit "app/legacy.strings")])
  /\ fst (main tree_fs Translator.a_batch_translate
            {| base := base_path; comparison_files := [];
               parse_level := ParseReporting.SILENT;
               missing_level := MissingReporting.SILENT;
               translate := true |})
     = Raise (SystemExit 0).
Proof.
  split.
  - assert (Hr : read_text tree_fs (lit "app/legacy.strings") = None)
      by (vm_compute; reflexivity).
    rewrite (proj1 (main_early_ends tree_fs Translator.a_batch_translate
                      {| base := lit "app/legacy.strings";
                         comparison_files := [french_path];
                         parse_level := ParseReporting.SILENT;
                         missing_level := MissingReporting.SILENT;
                         translate := true |}) Hr).
    vm_compute. reflexivity.
  - assert (Hr : read_text tree_fs base_path <> None)
      by (vm_compute; discriminate).
    destruct (proj2 (main_early_ends tree_fs Translator.a_batch_translate
                       {| base := base_path; comparison_files := [];
                          parse_level := ParseReporting.SILENT;
                          missing_level := MissingReporting.SILENT;
                          translate := true |}) Hr eq_refl) as [H _].
    exact H.
Defined.

(** X16. A comparison file that gives no text ends the whole run: with
    the base file parsed and the comparison files given on the command
    line, [main] raises for the first such file, [OSError] or
    [UnicodeDecodeError] as for the base file, and up to then it has only
    parsed: everything printed is a parsing notice, the line that opens
    the comparison of the files is not among them, so no file has been
    compared and nothing has been translated. *)
Theorem main_stops_at_unreadable_comparison
  (fs : filesystem) (translator : batch_translate) (args : arguments)
  (pre post : list str) (f : str) :
  read_text fs (base args) <> None ->
  files_given fs args ->
  comparison_files args = pre ++ f :: post ->
  Forall (fun p => read_text fs p <> None) pre ->
  read_text fs f = None ->
  fst (main fs translator args)
  = Raise (if undecodable fs f then UnicodeDecodeError f else OSError f)
  /\ forallb is_parse_output (snd (main fs translator args)) = true
  /\ ~ In Checking (snd (main fs translator args))
  /\ (forall p, ~ In (Scanning p) (snd (main fs translator args)))
  /\ (forall p, ~ In (Translating p) (snd (main fs translator args))).
Proof.
  intros Hbase Hgiven Hfiles Hpre Hf.
  assert (Hall : forallb is_parse_output (snd (main fs translator args))
                 = true).
  { destruct (read_text fs (base args)) as [text|] eqn:E; [|congruence].
    pose proof (@parse_output fs (base args)
                  (ParseReporting.get_report (parse_level args))) as Hout0.
    destruct (@parse_readable fs (base args)
                (ParseReporting.get_report (parse_level args)) _ E)
      as (d & out0 & Hp).
    rewrite Hp in Hout0. cbn [snd] in Hout0.
    pose proof (@parse_comparisons_output fs
                  (ParseReporting.get_report (parse_level args))
                  (pre ++ f :: post) []) as Hout1.
    pose proof (@parse_comparisons_unreadable fs
                  (ParseReporting.get_report (parse_level args))
                  pre f post [] Hpre Hf) as Hraise.
    rewrite <- Hfiles in Hraise, Hout1.
    destruct (parse_comparisons fs _ (comparison_files args) [])
      as [r out1] eqn:Hcmp.
    cbn [fst snd] in Hraise, Hout1. subst r.
    rewrite (@main_files_given fs translator args d out0
               (read_error fs f) out1 Hgiven Hp);
      [|rewrite Hfiles; destruct pre; discriminate|exact Hcmp].
    cbn [snd]. rewrite !forallb_app. cbn [forallb is_parse_output].
    rewrite Hout0, Hout1. reflexivity. }
  split; [|split; [exact Hall|]].
  - destruct (read_text fs (base args)) as [text|] eqn:E; [|congruence].
    destruct (@parse_readable fs (base args)
                (ParseReporting.get_report (parse_level args)) _ E)
      as (d & out0 & Hp).
    pose proof (@parse_comparisons_unreadable fs
                  (ParseReporting.get_report (parse_level args))
                  pre f post [] Hpre Hf) as Hraise.
    rewrite <- Hfiles in Hraise.
    destruct (parse_comparisons fs _ (comparison_files args) [])
      as [r out1] eqn:Hcmp.
    cbn [fst] in Hraise. subst r.
    rewrite (@main_files_given fs translator args d out0
               (read_error fs f) out1 Hgiven Hp);
      [|rewrite Hfiles; destruct pre; discriminate|exact Hcmp].
    reflexivity.
  - rewrite forallb_forall in Hall.
    split; [|split]; intros; intros Hin; apply Hall in Hin; discriminate Hin.
Qed.

(** X16 in the project directory of the examples: the second comparison
    file is not valid UTF-8. *)
Lemma main_stops_at_unreadable_comparison_witness :
  let args :=
    {| base := base_path;
       comparison_files :=
         [french_path; lit "app/legacy.strings"; german_path];
       parse_level := ParseReporting.DEFAULT;
       missing_level := MissingReporting.DEFAULT;
       translate := true |} in
  fst (main tree_fs Translator.a_batch_translate args)
  = Raise (UnicodeDecodeError (lit "app/legacy.strings"))
  /\ forallb is_parse_output
       (snd (main tree_fs Translator.a_batch_translate args))
     = true
  /\ ~ In Checking (snd (main tree_fs Translator.a_batch_translate args)).
Proof.
  intros args.
  assert (H0 : read_text tree_fs (base args) <> None)
    by (vm_compute; discriminate).
  assert (H1 : files_given tree_fs args) by exact I.
  assert (H2 : comparison_files args
               = [french_path] ++ lit "app/legacy.strings" :: [german_path])
    by reflexivity.
  assert (H3 : Forall (fun p => read_text tree_fs p <> None) [french_path])
    by (repeat constructor; vm_compute; discriminate).
  assert (H4 : read_text tree_fs (lit "app/legacy.strings") = None)
    by (vm_compute; reflexivity).
  destruct (@main_stops_at_unreadable_comparison
              tree_fs Translator.a_batch_translate args
              [french_path] [german_path] (lit "app/legacy.strings")
              H0 H1 H2 H3 H4) as (Ha & Hb & Hc & _).
  split; [rewrite Ha; vm_compute; reflexivity | split; [exact Hb | exact Hc]].
Defined.

(** X17. [main] given one directory: after the opening lines and the
    parsing of the base file it announces the search and the files found,
    and goes on to parse them in that order.  The files are the paths found
    under the directory that are files and are not the base file, in the
    order in which they were found: of two files, the one that comes first
    was found first.  The base file is never compared with itself. *)
Theorem main_searches_directory
  (fs : filesystem) (translator : batch_translate) (args : arguments)
  (directory : str) :
  read_text fs (base args) <> None ->
  comparison_files args = [directory] ->
  is_dir fs directory = true ->
  exists files out0 rest,
    snd (parse fs (base args) (ParseReporting.get_report (parse_level args)))
    = out0
    /\ snd (main fs translator args)
       = ParsingBase (base args) :: out0
         ++ [Collecting directory; ParsingComparison files]
         ++ snd (parse_comparisons fs
                   (ParseReporting.get_report (parse_level args)) files [])
         ++ rest
    /\ (forall p,
          In p files
          <-> In p (rglob fs directory)
              /\ is_file fs p = true /\ p <> base args)
    /\ (forall i j p q,
          i < j ->
          nth_error files i = Some p -> nth_error files j = Some q ->
          exists i' j',
            i' < j'
            /\ nth_error (rglob fs directory) i' = Some p
            /\ nth_error (rglob fs directory) j' = Some q)
    /\ ~ In (base args) files.
Proof.
  intros Hbase Hfiles Hdir.
  set (files := collect_language_files fs directory (base args)).
  assert (Hspec : forall p,
             In p files
             <-> In p (rglob fs directory)
                 /\ is_file fs p = true /\ p <> base args).
  { intros p. unfold files, collect_language_files.
    rewrite filter_In, andb_true_iff, negb_true_iff, str_eqb_neq.
    reflexivity. }
  destruct (read_text fs (base args)) as [text|] eqn:E; [|congruence].
  destruct (@parse_readable fs (base args)
              (ParseReporting.get_report (parse_level args)) _ E)
    as (d & out0 & Hp).
  assert (Hout : exists rest,
             snd (main fs translator args)
             = ParsingBase (base args) :: out0
               ++ [Collecting directory; ParsingComparison files]
               ++ snd (parse_comparisons fs
                         (ParseReporting.get_report (parse_level args))
                         files [])
               ++ rest).
  { unfold main. rewrite Hp, Hfiles, Hdir. fold files.
    destruct (parse_comparisons fs _ files []) as [[cp|e] out1].
    - destruct (check_comparisons d _ (Dict.items cp) []) as [md out2].
      destruct (translate args).
      + destruct (translate_missing translator (base args)
                    (Dict.items md) []) as [[td|e] out3].
        * exists ([Checking] ++ out2 ++ out3
                  ++ print_translated true (Dict.items td)).
          cbn [snd app]. rewrite <- !app_assoc. reflexivity.
        * exists ([Checking] ++ out2 ++ out3).
          cbn [snd app]. rewrite <- !app_assoc. reflexivity.
      + exists ([Checking] ++ out2).
        cbn [snd app]. rewrite <- !app_assoc. reflexivity.
    - exists []. cbn [snd app]. rewrite <- !app_assoc, app_nil_r.
      reflexivity. }
  destruct Hout as [rest Hout].
  exists files, out0, rest. rewrite Hp. cbn [snd].
  split; [reflexivity|]. split; [exact Hout|]. split; [exact Hspec|].
  split.
  - intros i j p q. apply filter_keeps_order.
  - intros Hin. apply Hspec in Hin as (_ & _ & Hne). congruence.
Qed.

(** X17 in the project directory of the examples. *)
Lemma main_searches_directory_witness :
  let args :=
    {| base := base_path; comparison_files := [lit "app"];
       parse_level := ParseReporting.SILENT;
       missing_level := MissingReporting.SILENT; translate := false |} in
  exists files out0 rest,
    snd (parse tree_fs (base args)
           (ParseReporting.get_report (parse_level args)))
    = out0
    /\ snd (main tree_fs Translator.a_batch_translate args)
       = ParsingBase (base args) :: out0
         ++ [Collecting (lit "app"); ParsingComparison files]
         ++ snd (parse_comparisons tree_fs
                   (ParseReporting.get_report (parse_level args)) files [])
         ++ rest
    /\ (forall p,
          In p files
          <-> In p (rglob tree_fs (lit "app"))
              /\ is_file tree_fs p = true /\ p <> base args)
    /\ (forall i j p q,
          i < j ->
          nth_error files i = Some p -> nth_error files j = Some q ->
          exists i' j',
            i' < j'
            /\ nth_error (rglob tree_fs (lit "app")) i' = Some p
            /\ nth_error (rglob tree_fs (lit "app")) j' = Some q)
    /\ ~ In (base args) files.
Proof.
  intros args.
  assert (H0 : read_text tree_fs (base args) <> None)
    by (vm_compute; discriminate).
  assert (H1 : comparison_files args = [lit "app"]) by reflexivity.
  assert (H2 : is_dir tree_fs (lit "app") = true)
    by (vm_compute; reflexivity).
  exact (@main_searches_directory tree_fs Translator.a_batch_translate
           args (lit "app") H0 H1 H2).
Defined.

(** The files of that run: the French and the German file. *)
Example directory_files :
  filter (fun p => is_file tree_fs p && negb (Str.eqb p base_path))
    (rglob tree_fs (lit "app"))
  = [french_path; german_path].
Proof. reflexivity. Qed.

(** A limit below three: the slice leaves out the last characters. *)
Example shorten_string_low_limit :
  shorten_string (lit "abcdef") 1 = lit "abcd...".
Proof. reflexivity. Qed.
